(** * Backtesting engine and strategies of the trading platform

    A shallow embedding of [server/src/backtest/engine.ts]
    ([BacktestEngine]), [server/src/strategies/base.ts] ([IStrategy] and the
    indicators of [BaseStrategy]), [server/src/strategies/sma-crossover.ts]
    ([SMACrossoverStrategy]) and [server/src/strategies/index.ts] (the
    registry and [getStrategy]), with the properties the specification states
    about them.

    Conventions of the embedding.

    - A JavaScript [number] is an exact rational ([Q]).  The rounding of
      IEEE doubles and the non-finite values ([NaN], [Infinity]) are outside
      the model.  In particular [x / 0] is [0] in [Q] where JavaScript gives
      a non-finite value; the statements below either repeat the formula of
      the code literally or assume what keeps the divisor away from zero
      (positive closes for the bound on the cash).  Numbers are compared
      with [==], [<] and [<=] of [Q]; [=] between numbers is used only where
      the two sides are the same expression.
    - Array indices and periods are integers ([Z]).  [bars[i]] outside the
      array is [undefined], and reading a property of it raises a
      [TypeError].
    - A thrown exception (for the [async] method [run], a rejected promise)
      is the [Throw] case of [completion].
    - Objects with mutable fields are passed explicitly: a method takes the
      state of [this] and returns the new one.  The engine drives a strategy
      object whose internal state has some type [S].
    - [Math.sqrt] is a parameter of the report, since its values are not
      rational. *)

From Stdlib Require Import QArith Qround Qminmax Qabs Lqa ZArith Lia.
From stdpp Require Import base option list list_numbers strings pretty gmap.

Local Open Scope Q_scope.

(** ** Numbers *)

(** [a < b] as a boolean; JavaScript [b > a]. *)
Definition Qlt_bool (x y : Q) : bool := negb (Qle_bool y x).

(** [Math.floor]. *)
Definition Math_floor (x : Q) : Q := inject_Z (Qfloor x).

(** [x || 0] for an optional number: [undefined] and [0] both give [0]. *)
Definition or_zero (x : option Q) : Q :=
  match x with
  | Some v => if Qeq_bool v 0 then 0 else v
  | None => 0
  end.

(** [Math.max(...xs)] for a non-empty argument list.  With no argument
    JavaScript answers [-Infinity], which is not a rational; the engine only
    spreads the drawdowns of an equity curve that holds at least one point
    (see [run_equityCurve_nonempty]). *)
Definition Math_max (xs : list Q) : Q :=
  match xs with
  | [] => 0
  | x :: rest => fold_left Qmax rest x
  end.

(** [xs.reduce((a, b) => a + b, 0)]. *)
Definition Qsum (xs : list Q) : Q := fold_left Qplus xs 0.

(** ** Exceptions *)

Inductive exn :=
  | Error (msg : string)
  | TypeError.

Inductive completion (A : Type) :=
  | Normal (a : A)
  | Throw (e : exn).
Arguments Normal {A} a.
Arguments Throw {A} e.

#[global] Instance completion_ret : MRet completion := @Normal.
#[global] Instance completion_bind : MBind completion :=
  fun A B f m => match m with Normal a => f a | Throw e => Throw e end.

Definition returns {A} (m : completion A) : Prop := exists a, m = Normal a.
Definition throws {A} (m : completion A) : Prop := exists e, m = Throw e.

(** [for (x of xs) acc = body(x, acc)], leaving at the first exception. *)
Fixpoint foldM {A B} (body : B -> A -> completion A) (xs : list B) (acc : A)
  : completion A :=
  match xs with
  | [] => Normal acc
  | x :: rest => acc' ← body x acc; foldM body rest acc'
  end.

(** [for (let i = lo; i <= hi; i++) acc = body(i, acc)]. *)
Definition for_range {A} (lo hi : Z) (body : Z -> A -> completion A) (acc : A)
  : completion A :=
  foldM body (seqZ lo (hi - lo + 1)) acc.

(** ** Data model ([types/index.ts]) *)

Record Bar := mkBar {
  bar_t : string;
  bar_o : Q;
  bar_h : Q;
  bar_l : Q;
  bar_c : Q;
  bar_v : Q
}.

Inductive SignalAction := buy | sell | hold.

#[global] Instance SignalAction_eq_dec : EqDecision SignalAction.
Proof. solve_decision. Defined.

Record StrategySignal := mkSignal {
  sig_timestamp : string;
  sig_action : SignalAction;
  sig_confidence : Q;
  sig_reason : string
}.

Inductive TradeAction := trade_buy | trade_sell.

Record Trade := mkTrade {
  trade_timestamp : string;
  trade_action : TradeAction;
  trade_symbol : string;
  trade_quantity : Q;
  trade_price : Q;
  trade_value : Q;
  trade_reason : string
}.

Record EquityPoint := mkEquityPoint {
  ep_timestamp : string;
  ep_equity : Q;
  ep_drawdown : Q
}.

Record BacktestResult := mkResult {
  strategy_id : string;
  res_symbol : string;
  start_date : string;
  end_date : string;
  initial_capital : Q;
  final_capital : Q;
  total_return : Q;
  total_return_pct : Q;
  sharpe_ratio : Q;
  max_drawdown : Q;
  total_trades : nat;
  winning_trades : nat;
  losing_trades : nat;
  win_rate : Q;
  res_trades : list Trade;
  equity_curve : list EquityPoint
}.

(** [bars[i]] followed by a property access: a [TypeError] when [bars[i]] is
    [undefined]. *)
Definition bar_at (bars : list Bar) (i : Z) : completion Bar :=
  if (i <? 0)%Z then Throw TypeError
  else match bars !! Z.to_nat i with
       | Some b => Normal b
       | None => Throw TypeError
       end.

(** ** Indicators ([BaseStrategy], strategies/base.ts) *)

(** The body of the summing loop of [calculateSMA]. *)
Definition calculateSMA_body (bars : list Bar) (i : Z) (sum : Q) : completion Q :=
  b ← bar_at bars i; Normal (sum + bar_c b).

Definition calculateSMA (bars : list Bar) (period endIndex : Z) : completion Q :=
  if (endIndex <? period - 1)%Z then Normal 0
  else
    sum ← for_range (endIndex - period + 1) endIndex (calculateSMA_body bars) 0;
    Normal (sum / inject_Z period).

(** The body of the loop of [calculateRSI] over the pair (gains, losses). *)
Definition calculateRSI_body (bars : list Bar) (i : Z) (acc : Q * Q)
  : completion (Q * Q) :=
  let (gains, losses) := acc in
  bi ← bar_at bars i;
  bp ← bar_at bars (i - 1);
  let change := bar_c bi - bar_c bp in
  if Qlt_bool 0 change
  then Normal (gains + change, losses)
  else Normal (gains, losses + Qabs change).

Definition calculateRSI (bars : list Bar) (period endIndex : Z) : completion Q :=
  if (endIndex <? period)%Z then Normal 50
  else
    acc ← for_range (endIndex - period + 1) endIndex (calculateRSI_body bars) (0, 0);
    let (gains, losses) := acc : Q * Q in
    let avgGain := gains / inject_Z period in
    let avgLoss := losses / inject_Z period in
    if Qeq_bool avgLoss 0 then Normal 100
    else
      let rs := avgGain / avgLoss in
      Normal (100 - 100 / (1 + rs)).

(** ** Strategy interface ([IStrategy], strategies/base.ts)

    A strategy object has internal state of some type [S] (its parameters
    and whatever else an implementation keeps between calls); [analyze] and
    the optional [initialize] are methods over that state. *)

Record IStrategy (S : Type) := mkStrategy {
  name : string;
  description : string;
  analyze : S -> list Bar -> Z -> completion (StrategySignal * S);
  initialize : option (S -> completion S)
}.
Arguments name {S} _.
Arguments description {S} _.
Arguments analyze {S} _ _ _ _.
Arguments initialize {S} _.

(** ** SMA crossover ([SMACrossoverStrategy], strategies/sma-crossover.ts) *)

Record SMAParameters := mkSMAParameters {
  shortPeriod : Z;
  longPeriod : Z
}.

Definition SMACrossover_constructor (shortPeriod longPeriod : option Z)
  : SMAParameters :=
  {| shortPeriod := default 10%Z shortPeriod;
     longPeriod := default 30%Z longPeriod |}.

Definition SMACrossover_analyze (this : SMAParameters) (bars : list Bar)
    (currentIndex : Z) : completion StrategySignal :=
  let shortPeriod := shortPeriod this in
  let longPeriod := longPeriod this in
  if (currentIndex <? longPeriod)%Z then
    b ← bar_at bars currentIndex;
    Normal {| sig_timestamp := bar_t b;
              sig_action := hold;
              sig_confidence := 0;
              sig_reason := "Insufficient data for analysis" |}
  else
    currentShortSMA ← calculateSMA bars shortPeriod currentIndex;
    currentLongSMA ← calculateSMA bars longPeriod currentIndex;
    previousShortSMA ← calculateSMA bars shortPeriod (currentIndex - 1);
    previousLongSMA ← calculateSMA bars longPeriod (currentIndex - 1);
    if Qle_bool previousShortSMA previousLongSMA
       && Qlt_bool currentLongSMA currentShortSMA then
      let confidence :=
        Qmin (((currentShortSMA - currentLongSMA) / currentLongSMA) * 100) 1 in
      b ← bar_at bars currentIndex;
      Normal {| sig_timestamp := bar_t b;
                sig_action := buy;
                sig_confidence := confidence;
                sig_reason := "Bullish crossover: SMA(" +:+ pretty shortPeriod
                              +:+ ") crossed above SMA(" +:+ pretty longPeriod
                              +:+ ")" |}
    else if Qle_bool previousLongSMA previousShortSMA
            && Qlt_bool currentShortSMA currentLongSMA then
      let confidence :=
        Qmin (((currentLongSMA - currentShortSMA) / currentLongSMA) * 100) 1 in
      b ← bar_at bars currentIndex;
      Normal {| sig_timestamp := bar_t b;
                sig_action := sell;
                sig_confidence := confidence;
                sig_reason := "Bearish crossover: SMA(" +:+ pretty shortPeriod
                              +:+ ") crossed below SMA(" +:+ pretty longPeriod
                              +:+ ")" |}
    else
      b ← bar_at bars currentIndex;
      Normal {| sig_timestamp := bar_t b;
                sig_action := hold;
                sig_confidence := 0;
                sig_reason := "No crossover detected" |}.

(** The class as an [IStrategy]: [analyze] leaves the object unchanged and
    [initialize] is the empty method inherited from [BaseStrategy]. *)
Definition SMACrossoverStrategy : IStrategy SMAParameters :=
  {| name := "SMA Crossover";
     description := "Simple Moving Average crossover strategy - buy when short SMA crosses above long SMA";
     analyze := fun this bars i =>
       sg ← SMACrossover_analyze this bars i; Normal (sg, this);
     initialize := Some (fun this => Normal this) |}.

(** ** Backtest engine ([BacktestEngine], backtest/engine.ts) *)

Record BacktestConfig (S : Type) := mkConfig {
  symbol : string;
  startDate : string;
  endDate : string;
  initialCapital : Q;
  strategy : IStrategy S;
  commission : option Q
}.
Arguments symbol {S} _.
Arguments startDate {S} _.
Arguments endDate {S} _.
Arguments initialCapital {S} _.
Arguments strategy {S} _.
Arguments commission {S} _.

Record BacktestEngine (S : Type) := mkEngine {
  config : BacktestConfig S;
  capital : Q;
  position : Q;
  trades : list Trade;
  equityCurve : list EquityPoint
}.
Arguments mkEngine {S} _ _ _ _ _.
Arguments config {S} _.
Arguments capital {S} _.
Arguments position {S} _.
Arguments trades {S} _.
Arguments equityCurve {S} _.

(** The local variables of the loop of [run], with the engine and the state
    of the strategy object it drives. *)
Record LoopState (S : Type) := mkLoop {
  eng : BacktestEngine S;
  strat : S;
  peakEquity : Q;
  maxDrawdown : Q
}.
Arguments mkLoop {S} _ _ _ _.
Arguments eng {S} _.
Arguments strat {S} _.
Arguments peakEquity {S} _.
Arguments maxDrawdown {S} _.

(** [reason || 'Strategy signal']: the empty string is falsy as well. *)
Definition reason_or_default (reason : option string) : string :=
  match reason with
  | Some r => if String.eqb r "" then "Strategy signal" else r
  | None => "Strategy signal"
  end.

Section Engine.
Context {S : Type}.

(** [Math.sqrt]: the one operation of the report that leaves the
    rationals; the development is parametric in it. *)
Variable Math_sqrt : Q -> Q.

Definition constructor (config : BacktestConfig S) : BacktestEngine S :=
  {| config := config;
     capital := initialCapital config;
     position := 0;
     trades := [];
     equityCurve := [] |}.

Definition executeBuy (this : BacktestEngine S) (bar : Bar)
    (reason : option string) : BacktestEngine S :=
  let commission := or_zero (commission (config this)) in
  let price := bar_c bar in
  let quantity := Math_floor ((capital this - commission) / price) in
  if Qle_bool quantity 0 then this
  else
    let totalCost := quantity * price + commission in
    {| config := config this;
       capital := capital this - totalCost;
       position := position this + quantity;
       trades := trades this ++
         [ {| trade_timestamp := bar_t bar;
              trade_action := trade_buy;
              trade_symbol := symbol (config this);
              trade_quantity := quantity;
              trade_price := price;
              trade_value := totalCost;
              trade_reason := reason_or_default reason |} ];
       equityCurve := equityCurve this |}.

Definition executeSell (this : BacktestEngine S) (bar : Bar)
    (reason : option string) : BacktestEngine S :=
  if Qle_bool (position this) 0 then this
  else
    let commission := or_zero (commission (config this)) in
    let price := bar_c bar in
    let quantity := position this in
    let totalValue := quantity * price - commission in
    {| config := config this;
       capital := capital this + totalValue;
       position := 0;
       trades := trades this ++
         [ {| trade_timestamp := bar_t bar;
              trade_action := trade_sell;
              trade_symbol := symbol (config this);
              trade_quantity := quantity;
              trade_price := price;
              trade_value := totalValue;
              trade_reason := reason_or_default reason |} ];
       equityCurve := equityCurve this |}.

(** [this.equityCurve.push(point)]. *)
Definition pushEquity (this : BacktestEngine S) (point : EquityPoint)
  : BacktestEngine S :=
  {| config := config this;
     capital := capital this;
     position := position this;
     trades := trades this;
     equityCurve := equityCurve this ++ [point] |}.

(** The last statement of the loop body: the trade policy. *)
Definition executeSignal (this : BacktestEngine S) (bar : Bar)
    (signal : StrategySignal) : BacktestEngine S :=
  if bool_decide (sig_action signal = buy)
     && Qeq_bool (position this) 0
     && Qlt_bool (1 # 2) (sig_confidence signal)
  then executeBuy this bar None
  else if bool_decide (sig_action signal = sell)
          && Qlt_bool 0 (position this)
          && Qlt_bool (1 # 2) (sig_confidence signal)
  then executeSell this bar None
  else this.

(** One iteration of [for (let i = 0; i < bars.length; i++)]. *)
Definition loopBody (bars : list Bar) (i : nat) (ls : LoopState S)
  : completion (LoopState S) :=
  let this := eng ls in
  '(signal, strat') ← analyze (strategy (config this)) (strat ls) bars (Z.of_nat i);
  bar ← bar_at bars (Z.of_nat i);
  let currentEquity := capital this + position this * bar_c bar in
  let peakEquity :=
    if Qlt_bool (peakEquity ls) currentEquity then currentEquity
    else peakEquity ls in
  let drawdown := (peakEquity - currentEquity) / peakEquity in
  let maxDrawdown := Qmax (maxDrawdown ls) drawdown in
  let this := pushEquity this {| ep_timestamp := bar_t bar;
                                 ep_equity := currentEquity;
                                 ep_drawdown := drawdown |} in
  let this := executeSignal this bar signal in
  Normal {| eng := this; strat := strat';
            peakEquity := peakEquity; maxDrawdown := maxDrawdown |}.

(** The loop, stopped after its first [n] iterations. *)
Definition loopUpTo (bars : list Bar) (n : nat) (ls : LoopState S)
  : completion (LoopState S) :=
  foldM (loopBody bars) (seq 0 n) ls.

(** The state on entry to the loop: the strategy initialised when it has
    an [initialize] method, [peakEquity] and [maxDrawdown] set. *)
Definition loopEntry (this : BacktestEngine S) (st : S)
  : completion (LoopState S) :=
  st ← match initialize (strategy (config this)) with
       | Some init => init st
       | None => Normal st
       end;
  Normal {| eng := this; strat := st;
            peakEquity := initialCapital (config this);
            maxDrawdown := 0 |}.

(** "Close any remaining position at the end". *)
Definition closeOut (this : BacktestEngine S) (bars : list Bar)
  : completion (BacktestEngine S) :=
  if Qlt_bool 0 (position this) then
    lastBar ← bar_at bars (Z.of_nat (length bars) - 1);
    Normal (executeSell this lastBar (Some "End of backtest"))
  else Normal this.

Definition is_buy (t : Trade) : bool :=
  match trade_action t with trade_buy => true | trade_sell => false end.
Definition is_sell (t : Trade) : bool :=
  match trade_action t with trade_sell => true | trade_buy => false end.

(** The loop that pairs the i-th sell with the i-th buy; the result is
    [(winningTrades, losingTrades)]. *)
Fixpoint countWins (sellTrades buyTrades : list Trade) : nat * nat :=
  match sellTrades, buyTrades with
  | s :: sells, b :: buys =>
      let (w, l) := countWins sells buys in
      if Qlt_bool 0 (trade_value s - trade_value b) then (Datatypes.S w, l)
      else (w, Datatypes.S l)
  | _, _ => (0%nat, 0%nat)
  end.

Definition nat_to_Q (n : nat) : Q := inject_Z (Z.of_nat n).

Definition generateReport (this : BacktestEngine S) : BacktestResult :=
  let finalEquity :=
    capital this + position this * or_zero (trade_price <$> last (trades this)) in
  let totalReturn := finalEquity - initialCapital (config this) in
  let totalReturnPct := (totalReturn / initialCapital (config this)) * 100 in
  let returns :=
    imap (fun i point =>
            match i with
            | O => 0
            | Datatypes.S j =>
                match equityCurve this !! j with
                | Some prev => (ep_equity point - ep_equity prev) / ep_equity prev
                | None => 0
                end
            end) (equityCurve this) in
  let avgReturn := Qsum returns / nat_to_Q (length returns) in
  let stdDev :=
    Math_sqrt (Qsum ((fun r => (r - avgReturn) ^ 2) <$> returns)
               / nat_to_Q (length returns)) in
  let sharpeRatio :=
    if Qlt_bool 0 stdDev then (avgReturn / stdDev) * Math_sqrt 252 else 0 in
  let buyTrades := filter is_buy (trades this) in
  let sellTrades := filter is_sell (trades this) in
  let (winningTrades, losingTrades) := countWins sellTrades buyTrades in
  let totalTrades := (winningTrades + losingTrades)%nat in
  let winRate :=
    if (0 <? totalTrades)%nat
    then (nat_to_Q winningTrades / nat_to_Q totalTrades) * 100 else 0 in
  let maxDrawdown := Math_max (ep_drawdown <$> equityCurve this) in
  {| strategy_id := name (strategy (config this));
     res_symbol := symbol (config this);
     start_date := startDate (config this);
     end_date := endDate (config this);
     initial_capital := initialCapital (config this);
     final_capital := finalEquity;
     total_return := totalReturn;
     total_return_pct := totalReturnPct;
     sharpe_ratio := sharpeRatio;
     max_drawdown := maxDrawdown;
     total_trades := length (trades this);
     winning_trades := winningTrades;
     losing_trades := losingTrades;
     win_rate := winRate;
     res_trades := trades this;
     equity_curve := equityCurve this |}.

(** [run]: the result, with the engine and the strategy object as the
    call leaves them. *)
Definition run (this : BacktestEngine S) (st : S) (bars : list Bar)
  : completion (BacktestResult * BacktestEngine S * S) :=
  if (length bars =? 0)%nat then Throw (Error "No bars provided for backtest")
  else
    entry ← loopEntry this st;
    ls ← loopUpTo bars (length bars) entry;
    this ← closeOut (eng ls) bars;
    Normal (generateReport this, this, strat ls).

End Engine.

(** ** The strategy registry ([strategies], [getStrategy], strategies/index.ts)

    The registry is a module-level constant that maps an identifier to a
    strategy object.  Objects live in a heap and are known by their location,
    so that "the same instance" is "the same location"; [getStrategy] assigns
    the field [parameters] of the object it looks up.  Parameter values are
    numbers.  Only the own properties of the registry are modelled, not the
    ones it inherits from [Object.prototype]. *)

Abbreviation loc := nat (only parsing).

Record StrategyObject := mkStrategyObject {
  obj_name : string;
  obj_description : string;
  obj_parameters : gmap string Q
}.

Abbreviation heap := (gmap loc StrategyObject) (only parsing).

Definition sma_loc : loc := 0%nat.
Definition rsi_loc : loc := 1%nat.

(** [export const strategies = { 'sma-crossover': ..., 'rsi': ... }]. *)
Definition strategies : gmap string loc :=
  {[ "sma-crossover" := sma_loc; "rsi" := rsi_loc ]}.

(** The heap once the module is loaded: the two instances built with the
    default arguments of their constructors. *)
Definition initial_heap : heap :=
  {[ sma_loc :=
       {| obj_name := "SMA Crossover";
          obj_description := "Simple Moving Average crossover strategy - buy when short SMA crosses above long SMA";
          obj_parameters := {[ "shortPeriod" := 10; "longPeriod" := 30 ]} |};
     rsi_loc :=
       {| obj_name := "RSI Strategy";
          obj_description := "Relative Strength Index strategy - buy when oversold, sell when overbought";
          obj_parameters :=
            {[ "period" := 14; "oversoldLevel" := 30; "overboughtLevel" := 70 ]} |} ]}.

(** [strategy.parameters = { ...strategy.parameters, ...params }]: the keys
    of [params] win. *)
Definition assign_parameters (params : gmap string Q) (o : StrategyObject)
  : StrategyObject :=
  {| obj_name := obj_name o;
     obj_description := obj_description o;
     obj_parameters := params ∪ obj_parameters o |}.

(** [getStrategy(name, params?)]: the location returned ([None] for [null])
    and the heap after the call.  [params] is [None] when the argument is
    [undefined]; an object, even an empty one, is truthy. *)
Definition getStrategy (name : string) (params : option (gmap string Q))
    (h : heap) : option loc * heap :=
  match strategies !! name with
  | None => (None, h)
  | Some strategy =>
      match params with
      | Some params => (Some strategy, alter (assign_parameters params) strategy h)
      | None => (Some strategy, h)
      end
  end.

(** A sequence of calls [getStrategy(name)] without parameters. *)
Definition getStrategy_each (names : list string) (h : heap) : heap :=
  foldl (fun h name => (getStrategy name None h).2) h names.

(** ** The other indicators of [BaseStrategy] (strategies/base.ts) *)

(** [calculateEMA] calls itself on [endIndex - 1] until it reaches
    [period - 1]; [fuel] bounds the depth of the recursion, and running out of
    it is the stack overflow of JavaScript.  [calculateEMA] gives it the
    depth the recursion needs (see [calculateEMA_fuel_enough]). *)
Fixpoint calculateEMA_fuel (fuel : nat) (bars : list Bar) (period endIndex : Z)
  : completion Q :=
  if (endIndex <? period - 1)%Z then Normal 0
  else
    let multiplier := 2 / (inject_Z period + 1) in
    if (endIndex =? period - 1)%Z then calculateSMA bars period endIndex
    else
      match fuel with
      | O => Throw (Error "Maximum call stack size exceeded")
      | Datatypes.S fuel =>
          previousEMA ← calculateEMA_fuel fuel bars period (endIndex - 1);
          b ← bar_at bars endIndex;
          Normal ((bar_c b - previousEMA) * multiplier + previousEMA)
      end.

Definition calculateEMA (bars : list Bar) (period endIndex : Z) : completion Q :=
  calculateEMA_fuel (Z.to_nat (endIndex - (period - 1))) bars period endIndex.

Definition getHighest_body (bars : list Bar) (i : Z) (highest : Q) : completion Q :=
  b ← bar_at bars i; Normal (Qmax highest (bar_h b)).

Definition getHighest (bars : list Bar) (period endIndex : Z) : completion Q :=
  b ← bar_at bars endIndex;
  for_range (Z.max 0 (endIndex - period + 1)) endIndex (getHighest_body bars) (bar_h b).

Definition getLowest_body (bars : list Bar) (i : Z) (lowest : Q) : completion Q :=
  b ← bar_at bars i; Normal (Qmin lowest (bar_l b)).

Definition getLowest (bars : list Bar) (period endIndex : Z) : completion Q :=
  b ← bar_at bars endIndex;
  for_range (Z.max 0 (endIndex - period + 1)) endIndex (getLowest_body bars) (bar_l b).

(** ** RSI strategy ([RSIStrategy], strategies/rsi.ts) *)

(** [s.padStart(width, "0")]. *)
Definition pad_zeros (width : nat) (s : string) : string :=
  String.concat "" (replicate (width - String.length s) "0") +:+ s.

(** [x.toFixed(fractionDigits)] for [x] below 10^21: the integer [n] nearest
    to [x * 10^fractionDigits], the larger one on a tie, printed with the
    decimal point [fractionDigits] places from the right. *)
Definition toFixed (x : Q) (fractionDigits : nat) : string :=
  let s := if Qlt_le_dec x 0 then "-" else "" in
  let x := Qabs x in
  let scale := (10 ^ Z.of_nat fractionDigits)%Z in
  let n := Qfloor (x * inject_Z scale + (1 # 2)) in
  let m := match fractionDigits with
           | O => pretty n
           | _ => pretty (n / scale)%Z +:+ "." +:+
                  pad_zeros fractionDigits (pretty (n mod scale)%Z)
           end in
  s +:+ m.

(** The field [period] of the parameters is [rsi_period] here. *)
Record RSIParameters := mkRSIParameters {
  rsi_period : Z;
  oversoldLevel : Q;
  overboughtLevel : Q
}.

Definition RSI_constructor (period : option Z) (oversoldLevel overboughtLevel : option Q)
  : RSIParameters :=
  {| rsi_period := default 14%Z period;
     oversoldLevel := default 30 oversoldLevel;
     overboughtLevel := default 70 overboughtLevel |}.

Definition RSI_analyze (this : RSIParameters) (bars : list Bar)
    (currentIndex : Z) : completion StrategySignal :=
  let period := rsi_period this in
  let oversoldLevel := oversoldLevel this in
  let overboughtLevel := overboughtLevel this in
  if (currentIndex <? period + 1)%Z then
    b ← bar_at bars currentIndex;
    Normal {| sig_timestamp := bar_t b;
              sig_action := hold;
              sig_confidence := 0;
              sig_reason := "Insufficient data for RSI calculation" |}
  else
    currentRSI ← calculateRSI bars period currentIndex;
    previousRSI ← calculateRSI bars period (currentIndex - 1);
    if Qle_bool previousRSI oversoldLevel && Qlt_bool oversoldLevel currentRSI then
      let confidence := (oversoldLevel - previousRSI) / oversoldLevel in
      b ← bar_at bars currentIndex;
      Normal {| sig_timestamp := bar_t b;
                sig_action := buy;
                sig_confidence := confidence;
                sig_reason := "RSI crossed above oversold level ("
                              +:+ toFixed currentRSI 2 +:+ ")" |}
    else if Qle_bool overboughtLevel previousRSI
            && Qlt_bool currentRSI overboughtLevel then
      let confidence := (previousRSI - overboughtLevel) / (100 - overboughtLevel) in
      b ← bar_at bars currentIndex;
      Normal {| sig_timestamp := bar_t b;
                sig_action := sell;
                sig_confidence := confidence;
                sig_reason := "RSI crossed below overbought level ("
                              +:+ toFixed currentRSI 2 +:+ ")" |}
    else if Qlt_bool currentRSI oversoldLevel then
      b ← bar_at bars currentIndex;
      Normal {| sig_timestamp := bar_t b;
                sig_action := buy;
                sig_confidence := (oversoldLevel - currentRSI) / oversoldLevel;
                sig_reason := "RSI is oversold (" +:+ toFixed currentRSI 2 +:+ ")" |}
    else if Qlt_bool overboughtLevel currentRSI then
      b ← bar_at bars currentIndex;
      Normal {| sig_timestamp := bar_t b;
                sig_action := sell;
                sig_confidence :=
                  (currentRSI - overboughtLevel) / (100 - overboughtLevel);
                sig_reason := "RSI is overbought (" +:+ toFixed currentRSI 2 +:+ ")" |}
    else
      b ← bar_at bars currentIndex;
      Normal {| sig_timestamp := bar_t b;
                sig_action := hold;
                sig_confidence := 0;
                sig_reason := "RSI is neutral (" +:+ toFixed currentRSI 2 +:+ ")" |}.

Definition RSIStrategy : IStrategy RSIParameters :=
  {| name := "RSI Strategy";
     description := "Relative Strength Index strategy - buy when oversold, sell when overbought";
     analyze := fun this bars i =>
       sg ← RSI_analyze this bars i; Normal (sg, this);
     initialize := Some (fun this => Normal this) |}.

(** ** The strategies route (routes/strategies.ts)

    A handler answers with a status and a JSON body.  Reading a field of a
    strategy that is not in the heap is the [TypeError] the handler catches
    and turns into a 500. *)

Record StrategyInfo := mkStrategyInfo {
  info_id : string;
  info_name : string;
  info_description : string;
  info_parameters : gmap string Q
}.

Inductive Body :=
  | JsonStrategy (s : StrategyInfo)
  | JsonStrategies (l : list StrategyInfo)
  | JsonError (error : string).

Record Response := mkResponse {
  status : nat;
  body : Body
}.

(** [Object.keys(strategies)]: the own keys in insertion order. *)
Definition strategy_keys : list string := ["sma-crossover"; "rsi"].

(** [{ id, name: strategy.name, ... }] for the object at [l]. *)
Definition strategy_info (id : string) (l : loc) (h : heap) : completion StrategyInfo :=
  match h !! l with
  | Some o => Normal {| info_id := id;
                        info_name := obj_name o;
                        info_description := obj_description o;
                        info_parameters := obj_parameters o |}
  | None => Throw TypeError
  end.

(** [error.message || fallback]; a [TypeError] has a non-empty message. *)
Definition error_message (e : exn) (fallback : string) : string :=
  match e with
  | Error msg => if String.eqb msg "" then fallback else msg
  | TypeError => "Cannot read properties of undefined (reading 'name')"
  end.

(** [keys.map(f)], leaving at the first exception. *)
Fixpoint mapM {A B} (f : A -> completion B) (xs : list A) : completion (list B) :=
  match xs with
  | [] => Normal []
  | x :: rest => y ← f x; ys ← mapM f rest; Normal (y :: ys)
  end.

(** [router.get('/')]. *)
Definition get_strategies (h : heap) : Response :=
  match mapM (fun key =>
                match strategies !! key with
                | Some l => strategy_info key l h
                | None => Throw TypeError
                end) strategy_keys with
  | Normal strategyList => {| status := 200; body := JsonStrategies strategyList |}
  | Throw e => {| status := 500;
                  body := JsonError (error_message e "Failed to fetch strategies") |}
  end.

(** [router.get('/:strategyId')]: the response and the heap after the call
    to [getStrategy]. *)
Definition get_strategy (strategyId : string) (h : heap) : Response * heap :=
  let (strategy, h) := getStrategy strategyId None h in
  match strategy with
  | None => ({| status := 404; body := JsonError "Strategy not found" |}, h)
  | Some l =>
      match strategy_info strategyId l h with
      | Normal info => ({| status := 200; body := JsonStrategy info |}, h)
      | Throw e => ({| status := 500;
                       body := JsonError (error_message e "Failed to fetch strategy") |}, h)
      end
  end.

(** ** Vocabulary of the specification *)

Section PolicyWords.
Context {S : Type}.
Implicit Types (this : BacktestEngine S) (bar : Bar) (signal : StrategySignal).

(** The fill quantity of a buy, [floor((cash - commission) / close)]. *)
Definition fillQuantity this bar : Q :=
  Math_floor ((capital this - or_zero (commission (config this))) / bar_c bar).

(** The conditions of the policy, as the specification words them. *)
Definition buys this bar signal : Prop :=
  sig_action signal = buy /\ position this == 0 /\
  1 # 2 < sig_confidence signal /\ 1 <= fillQuantity this bar.

Definition sells this signal : Prop :=
  sig_action signal = sell /\ 0 < position this /\
  1 # 2 < sig_confidence signal.


End PolicyWords.

(** The indicators as the specification words them.  [close bars i] is the
    close of bar [i]; the trailing window of [period] bars ends at
    [endIndex]. *)
Definition close (bars : list Bar) (i : Z) : Q :=
  match bar_at bars i with Normal b => bar_c b | Throw _ => 0 end.

Definition window (period endIndex : Z) : list Z :=
  seqZ (endIndex - period + 1) period.


(** Close-to-close changes over the window, and their split in gains and
    losses. *)
Definition changes (bars : list Bar) (period endIndex : Z) : list Q :=
  (fun i => close bars i - close bars (i - 1)) <$> window period endIndex.

Definition gain (change : Q) : Q := if Qlt_bool 0 change then change else 0.
Definition loss (change : Q) : Q := if Qlt_bool 0 change then 0 else Qabs change.

Definition avgGain (bars : list Bar) (period endIndex : Z) : Q :=
  Qsum (gain <$> changes bars period endIndex) / inject_Z period.

Definition avgLoss (bars : list Bar) (period endIndex : Z) : Q :=
  Qsum (loss <$> changes bars period endIndex) / inject_Z period.

Definition RSI_spec (bars : list Bar) (period endIndex : Z) : Q :=
  if Qeq_bool (avgLoss bars period endIndex) 0 then 100
  else 100 - 100 / (1 + avgGain bars period endIndex / avgLoss bars period endIndex).


(** A strategy that answers every bar of [bars], whatever state it is in, and
    whose [initialize], if any, returns. *)
Definition strategy_answers {S : Type} (s : IStrategy S) (bars : list Bar) : Prop :=
  (forall init st, initialize s = Some init -> returns (init st)) /\
  (forall st i, (i < length bars)%nat -> returns (analyze s st bars (Z.of_nat i))).




(** ** Fixtures for the examples *)

(** A stub strategy that replays a script of (action, confidence) pairs, one
    per bar, and holds once the script is exhausted. *)
Definition scripted (script : list (SignalAction * Q)) : IStrategy unit :=
  {| name := "scripted";
     description := "replays a fixed list of signals";
     analyze := fun this bars i =>
       b ← bar_at bars i;
       let (action, confidence) := default (hold, 0) (script !! Z.to_nat i) in
       Normal ({| sig_timestamp := bar_t b;
                  sig_action := action;
                  sig_confidence := confidence;
                  sig_reason := "scripted" |}, this);
     initialize := None |}.

(** A bar whose four prices are all [c]. *)
Definition flatBar (t : string) (c : Q) : Bar := mkBar t c c c c 0.

Definition bars3 : list Bar :=
  [flatBar "2024-01-02" 100; flatBar "2024-01-03" 100; flatBar "2024-01-04" 120].

Definition config3 : BacktestConfig unit :=
  {| symbol := "AAPL"; startDate := "2024-01-02"; endDate := "2024-01-04";
     initialCapital := 1000;
     strategy := scripted [(buy, 1); (hold, 0); (sell, 1)];
     commission := Some 0 |}.

(** A stand-in for [Math.sqrt] to run the examples: the integer square root
    of the floor. *)
Definition isqrt (x : Q) : Q := inject_Z (Z.sqrt (Qfloor x)).


Definition run3 : completion (BacktestResult * BacktestEngine unit * unit) :=
  run isqrt (constructor config3) () bars3.

(** A run in which the sell overdraws the account: 10 in cash, a commission
    of 4, a buy of one share at 6 and its sale at 1. *)
Definition barsOverdraw : list Bar :=
  [flatBar "2024-01-02" 6; flatBar "2024-01-03" 1].

Definition configOverdraw : BacktestConfig unit :=
  {| symbol := "AAPL"; startDate := "2024-01-02"; endDate := "2024-01-03";
     initialCapital := 10;
     strategy := scripted [(buy, 1); (sell, 1)];
     commission := Some 4 |}.

(** A configuration with a negative initial capital, as the route builds it
    for the strategy 'sma-crossover', and a single bar. *)
Definition barsOne : list Bar := [flatBar "2024-01-02" 10].

Definition defaultSMAParameters : SMAParameters :=
  SMACrossover_constructor None None.

Definition configNegative : BacktestConfig SMAParameters :=
  {| symbol := "AAPL"; startDate := "2024-01-02"; endDate := "2024-01-02";
     initialCapital := -100;
     strategy := SMACrossoverStrategy;
     commission := Some 0 |}.

(** Five bars with closes 1, 2, 3, 2, 5. *)
Definition bars5 : list Bar :=
  [flatBar "d1" 1; flatBar "d2" 2; flatBar "d3" 3; flatBar "d4" 2; flatBar "d5" 5].


(** An override of the long period of the SMA crossover strategy. *)
Definition overrideLong : gmap string Q := {[ "longPeriod" := 5 ]}.

Definition defaultSMAObject : StrategyObject :=
  {| obj_name := "SMA Crossover";
     obj_description := "Simple Moving Average crossover strategy - buy when short SMA crosses above long SMA";
     obj_parameters := {[ "shortPeriod" := 10; "longPeriod" := 30 ]} |}.

(** A run with a dip and no sell signal: the strategy buys on the first bar
    and holds; closes 100, 80, 120. *)
Definition barsDip : list Bar :=
  [flatBar "2024-01-02" 100; flatBar "2024-01-03" 80; flatBar "2024-01-04" 120].

Definition configDip : BacktestConfig unit :=
  {| symbol := "AAPL"; startDate := "2024-01-02"; endDate := "2024-01-04";
     initialCapital := 1000;
     strategy := scripted [(buy, 1)];
     commission := None |}.

Definition runDip : completion (BacktestResult * BacktestEngine unit * unit) :=
  run isqrt (constructor configDip) () barsDip.

(** A share that costs more than the whole capital. *)
Definition configPoor : BacktestConfig unit :=
  {| symbol := "AAPL"; startDate := "2024-01-02"; endDate := "2024-01-04";
     initialCapital := 50;
     strategy := scripted [(buy, 1); (buy, 1); (buy, 1)];
     commission := None |}.

(** Four bars with distinct highs (12, 15, 14, 13) and lows (9, 10, 8, 9). *)
Definition barsOHLC : list Bar :=
  [mkBar "d1" 10 12 9 11 100; mkBar "d2" 11 15 10 14 100;
   mkBar "d3" 14 14 8 9 100; mkBar "d4" 9 13 9 12 100].

(** The two crossings [RSIStrategy] looks for, between the RSI of the bar
    before and the RSI of the current bar. *)
Definition crossesUp (this : RSIParameters) (previousRSI currentRSI : Q) : Prop :=
  previousRSI <= oversoldLevel this /\ oversoldLevel this < currentRSI.

Definition crossesDown (this : RSIParameters) (previousRSI currentRSI : Q) : Prop :=
  overboughtLevel this <= previousRSI /\ currentRSI < overboughtLevel this.

(** Closes 10, 9, 8, 7, 8: three falls, then a rise. *)
Definition barsFall : list Bar :=
  [flatBar "d1" 10; flatBar "d2" 9; flatBar "d3" 8; flatBar "d4" 7; flatBar "d5" 8].

Definition rsi2 : RSIParameters := mkRSIParameters 2 30 70.

Definition configRSI : BacktestConfig RSIParameters :=
  {| symbol := "AAPL"; startDate := "d1"; endDate := "d5";
     initialCapital := 100;
     strategy := RSIStrategy;
     commission := None |}.

(** ** Vocabulary for the trade log *)

(** The trade [executeBuy] appends when the buy fills, and the one
    [executeSell] appends when a position is open. *)
Definition buyTrade {S : Type} (this : BacktestEngine S) (bar : Bar)
    (reason : option string) : Trade :=
  {| trade_timestamp := bar_t bar;
     trade_action := trade_buy;
     trade_symbol := symbol (config this);
     trade_quantity := fillQuantity this bar;
     trade_price := bar_c bar;
     trade_value := fillQuantity this bar * bar_c bar
                    + or_zero (commission (config this));
     trade_reason := reason_or_default reason |}.

Definition sellTrade {S : Type} (this : BacktestEngine S) (bar : Bar)
    (reason : option string) : Trade :=
  {| trade_timestamp := bar_t bar;
     trade_action := trade_sell;
     trade_symbol := symbol (config this);
     trade_quantity := position this;
     trade_price := bar_c bar;
     trade_value := position this * bar_c bar
                    - or_zero (commission (config this));
     trade_reason := reason_or_default reason |}.





(** A trade of the log of a run over [bars] with configuration [cfg]: for
    the configured symbol, filled at the close of the bar it is stamped
    with, its value the quantity times the price plus (buy) or minus (sell)
    the commission. *)
Definition trade_of_run {S : Type} (cfg : BacktestConfig S) (bars : list Bar)
    (t : Trade) : Prop :=
  trade_symbol t = symbol cfg /\
  (exists bar, bar ∈ bars /\ trade_timestamp t = bar_t bar /\
               trade_price t = bar_c bar) /\
  trade_value t =
    match trade_action t with
    | trade_buy => trade_quantity t * trade_price t + or_zero (commission cfg)
    | trade_sell => trade_quantity t * trade_price t - or_zero (commission cfg)
    end.


(** The engine still is as the constructor left it, but for the equity
    curve, whose points all record the initial capital; the strategy object
    satisfies [Inv]. *)
Definition untouched {S : Type} (cfg : BacktestConfig S) (Inv : S -> Prop)
    (ls : LoopState S) : Prop :=
  config (eng ls) = cfg /\ capital (eng ls) = initialCapital cfg /\
  position (eng ls) = 0 /\ trades (eng ls) = [] /\
  Forall (fun p => ep_equity p == initialCapital cfg) (equityCurve (eng ls)) /\
  Inv (strat ls).

(** A run over two bars and a hold-only script. *)
Definition configQuiet : BacktestConfig unit :=
  {| symbol := "AAPL"; startDate := "2024-01-02"; endDate := "2024-01-04";
     initialCapital := 1000;
     strategy := scripted [(buy, 1 # 2); (sell, 1); (hold, 1)];
     commission := None |}.

Definition configSMA : BacktestConfig SMAParameters :=
  {| symbol := "AAPL"; startDate := "2024-01-02"; endDate := "2024-01-04";
     initialCapital := 1000;
     strategy := SMACrossoverStrategy;
     commission := None |}.


(** Every instance the registry names is in the heap. *)
Definition registry_allocated (h : heap) : Prop :=
  forall id l, strategies !! id = Some l -> is_Some (h !! l).

(** What the route answers for the object [o] registered as [id]. *)
Definition info_of (id : string) (o : StrategyObject) : StrategyInfo :=
  {| info_id := id;
     info_name := obj_name o;
     info_description := obj_description o;
     info_parameters := obj_parameters o |}.

Definition overrideShort : gmap string Q := {[ "shortPeriod" := 3; "longPeriod" := 7 ]}.

(** [strategies] is an object literal, so [strategies[name]] also finds what
    [Object.prototype] provides under these names.  The registry map holds
    the own keys only; statements about unregistered names leave these
    out. *)
Definition Object_prototype_keys : list string :=
  ["constructor"; "__proto__"; "hasOwnProperty"; "isPrototypeOf";
   "propertyIsEnumerable"; "toLocaleString"; "toString"; "valueOf";
   "__defineGetter__"; "__defineSetter__"; "__lookupGetter__";
   "__lookupSetter__"].
(** * Properties *)

(** ** Numbers and the exception monad *)

Lemma Qlt_bool_iff (x y : Q) : Qlt_bool x y = true <-> x < y.
Proof.
  unfold Qlt_bool. rewrite negb_true_iff.
  split; intros H.
  - apply Qnot_le_lt. intros Hle. apply Qle_bool_iff in Hle. congruence.
  - destruct (Qle_bool y x) eqn:E; [|reflexivity].
    apply Qle_bool_iff in E. exfalso. exact (Qlt_not_le _ _ H E).
Qed.

Lemma Qlt_bool_false (x y : Q) : Qlt_bool x y = false <-> y <= x.
Proof.
  unfold Qlt_bool. rewrite negb_false_iff. apply Qle_bool_iff.
Qed.

Lemma Qle_bool_false (x y : Q) : Qle_bool x y = false <-> y < x.
Proof.
  rewrite <- Qlt_bool_iff. unfold Qlt_bool.
  destruct (Qle_bool x y); simpl; intuition congruence.
Qed.

Lemma Qeq_bool_false (x y : Q) : Qeq_bool x y = false <-> ~ x == y.
Proof.
  split; [apply Qeq_bool_neq|].
  intros H. destruct (Qeq_bool x y) eqn:E; [|reflexivity].
  apply Qeq_bool_iff in E. contradiction.
Qed.

(** A floor is an integer: it is positive as soon as it is not [<= 0]. *)
Lemma Math_floor_not_le_0 (x : Q) : Math_floor x <= 0 \/ 1 <= Math_floor x.
Proof.
  unfold Math_floor.
  destruct (Z_le_gt_dec (Qfloor x) 0) as [H|H].
  - left. change 0 with (inject_Z 0). now rewrite <- Zle_Qle.
  - right. change 1 with (inject_Z 1). rewrite <- Zle_Qle. lia.
Qed.

Lemma or_zero_nonneg (x : option Q) :
  (forall v, x = Some v -> 0 <= v) -> 0 <= or_zero x.
Proof.
  intros H. destruct x as [v|]; simpl; [|apply Qle_refl].
  destruct (Qeq_bool v 0); [apply Qle_refl|]. now apply H.
Qed.

Lemma foldM_app {A B} (body : B -> A -> completion A) (xs ys : list B) (acc : A) :
  foldM body (xs ++ ys) acc = acc' ← foldM body xs acc; foldM body ys acc'.
Proof.
  revert acc. induction xs as [|x xs IH]; intros acc; simpl; [reflexivity|].
  destruct (body x acc) as [acc'|e]; simpl; [apply IH|reflexivity].
Qed.

Lemma bind_Normal {A B} (m : completion A) (f : A -> completion B) (b : B) :
  m ≫= f = Normal b <-> exists a, m = Normal a /\ f a = Normal b.
Proof.
  destruct m as [a|e]; simpl.
  - split; [eauto|]. now intros (a' & [= <-] & H).
  - split; [discriminate|]. now intros (a' & [=] & _).
Qed.

Lemma bar_at_nat (bars : list Bar) (i : nat) (b : Bar) :
  bar_at bars (Z.of_nat i) = Normal b <-> bars !! i = Some b.
Proof.
  unfold bar_at.
  destruct (Z.ltb_spec (Z.of_nat i) 0) as [H|_]; [lia|].
  rewrite Nat2Z.id. destruct (bars !! i); split; congruence.
Qed.

Lemma bar_at_in_range (bars : list Bar) (i : Z) :
  (0 <= i < Z.of_nat (length bars))%Z -> returns (bar_at bars i).
Proof.
  intros [H0 H1]. unfold bar_at, returns.
  destruct (Z.ltb_spec i 0) as [H|_]; [lia|].
  destruct (lookup_lt_is_Some_2 bars (Z.to_nat i)) as [b Hb]; [lia|].
  rewrite Hb. eauto.
Qed.

(** ** The trade policy of one bar *)

Section TradePolicy.
Context {S : Type}.
Implicit Types (this : BacktestEngine S) (bar : Bar) (signal : StrategySignal).

Lemma executeBuy_fills this bar reason :
  1 <= fillQuantity this bar ->
  executeBuy this bar reason =
    {| config := config this;
       capital := capital this -
         (fillQuantity this bar * bar_c bar + or_zero (commission (config this)));
       position := position this + fillQuantity this bar;
       trades := trades this ++
         [ {| trade_timestamp := bar_t bar;
              trade_action := trade_buy;
              trade_symbol := symbol (config this);
              trade_quantity := fillQuantity this bar;
              trade_price := bar_c bar;
              trade_value := fillQuantity this bar * bar_c bar
                             + or_zero (commission (config this));
              trade_reason := reason_or_default reason |} ];
       equityCurve := equityCurve this |}.
Proof.
  intros Hq. unfold executeBuy. fold (fillQuantity this bar).
  destruct (Qle_bool (fillQuantity this bar) 0) eqn:E; [|reflexivity].
  apply Qle_bool_iff in E. exfalso.
  apply (Qlt_not_le 0 1); [reflexivity|]. now apply Qle_trans with (fillQuantity this bar).
Qed.

Lemma executeBuy_skips this bar reason :
  ~ 1 <= fillQuantity this bar -> executeBuy this bar reason = this.
Proof.
  intros Hq. unfold executeBuy. fold (fillQuantity this bar).
  destruct (Qle_bool (fillQuantity this bar) 0) eqn:E; [reflexivity|].
  apply Qle_bool_false in E. exfalso. apply Hq.
  destruct (Math_floor_not_le_0
              ((capital this - or_zero (commission (config this))) / bar_c bar))
    as [H|H]; [|exact H].
  exfalso. exact (Qlt_not_le _ _ E H).
Qed.

Lemma executeSell_liquidates this bar reason :
  0 < position this ->
  executeSell this bar reason =
    {| config := config this;
       capital := capital this +
         (position this * bar_c bar - or_zero (commission (config this)));
       position := 0;
       trades := trades this ++
         [ {| trade_timestamp := bar_t bar;
              trade_action := trade_sell;
              trade_symbol := symbol (config this);
              trade_quantity := position this;
              trade_price := bar_c bar;
              trade_value := position this * bar_c bar
                             - or_zero (commission (config this));
              trade_reason := reason_or_default reason |} ];
       equityCurve := equityCurve this |}.
Proof.
  intros Hp. unfold executeSell.
  apply Qle_bool_false in Hp. now rewrite Hp.
Qed.

Lemma executeSell_flat this bar reason :
  position this <= 0 -> executeSell this bar reason = this.
Proof.
  intros Hp. unfold executeSell. apply Qle_bool_iff in Hp. now rewrite Hp.
Qed.


(** The three outcomes of [executeSignal]. *)
Lemma executeSignal_buys this bar signal :
  buys this bar signal ->
  executeSignal this bar signal = executeBuy this bar None.
Proof.
  intros (Ha & Hp & Hc & _). unfold executeSignal.
  rewrite Ha, bool_decide_eq_true_2 by reflexivity.
  apply Qeq_bool_iff in Hp. apply Qlt_bool_iff in Hc. now rewrite Hp, Hc.
Qed.

Lemma executeSignal_sells this bar signal :
  sells this signal ->
  executeSignal this bar signal = executeSell this bar None.
Proof.
  intros (Ha & Hp & Hc). unfold executeSignal.
  rewrite Ha, (bool_decide_eq_false_2 (sell = buy)) by discriminate.
  rewrite bool_decide_eq_true_2 by reflexivity.
  apply Qlt_bool_iff in Hp. apply Qlt_bool_iff in Hc. now rewrite Hp, Hc.
Qed.

Lemma executeSignal_noop this bar signal :
  ~ buys this bar signal -> ~ sells this signal ->
  executeSignal this bar signal = this.
Proof.
  intros Hnb Hns. unfold executeSignal.
  destruct (bool_decide (sig_action signal = buy)
            && Qeq_bool (position this) 0
            && Qlt_bool (1 # 2) (sig_confidence signal)) eqn:Eb.
  - apply andb_true_iff in Eb as [Eb Hc]. apply andb_true_iff in Eb as [Ha Hp].
    apply bool_decide_eq_true in Ha. apply Qeq_bool_iff in Hp.
    apply Qlt_bool_iff in Hc.
    apply executeBuy_skips. intros Hq. apply Hnb. repeat split; assumption.
  - destruct (bool_decide (sig_action signal = sell)
              && Qlt_bool 0 (position this)
              && Qlt_bool (1 # 2) (sig_confidence signal)) eqn:Es;
      [|reflexivity].
    apply andb_true_iff in Es as [Es Hc]. apply andb_true_iff in Es as [Ha Hp].
    apply bool_decide_eq_true in Ha. apply Qlt_bool_iff in Hp.
    apply Qlt_bool_iff in Hc.
    exfalso. apply Hns. repeat split; assumption.
Qed.

Lemma buys_dec this bar signal :
  buys this bar signal \/ ~ buys this bar signal.
Proof.
  unfold buys.
  destruct (decide (sig_action signal = buy)); [|tauto].
  destruct (Qeq_dec (position this) 0); [|tauto].
  destruct (Qlt_le_dec (1 # 2) (sig_confidence signal)) as [|H];
    [|right; intros (_ & _ & H' & _); exact (Qlt_not_le _ _ H' H)].
  destruct (Qlt_le_dec (fillQuantity this bar) 1) as [H|]; [|tauto].
  right; intros (_ & _ & _ & H'); exact (Qlt_not_le _ _ H H').
Qed.

Lemma sells_dec this signal : sells this signal \/ ~ sells this signal.
Proof.
  unfold sells.
  destruct (decide (sig_action signal = sell)); [|tauto].
  destruct (Qlt_le_dec 0 (position this)) as [|H];
    [|right; intros (_ & H' & _); exact (Qlt_not_le _ _ H' H)].
  destruct (Qlt_le_dec (1 # 2) (sig_confidence signal)) as [|H]; [tauto|].
  right; intros (_ & _ & H'); exact (Qlt_not_le _ _ H' H).
Qed.


End TradePolicy.

(** ** C1: the trade policy of the loop *)

Section LoopBody.
Context {S : Type}.
Implicit Types (ls : LoopState S) (bars : list Bar).

(** What one iteration computes once [analyze] has answered. *)
Lemma loopBody_eq bars i ls bar signal st' :
  bars !! i = Some bar ->
  analyze (strategy (config (eng ls))) (strat ls) bars (Z.of_nat i)
    = Normal (signal, st') ->
  let currentEquity := capital (eng ls) + position (eng ls) * bar_c bar in
  let peak := if Qlt_bool (peakEquity ls) currentEquity
              then currentEquity else peakEquity ls in
  let drawdown := (peak - currentEquity) / peak in
  loopBody bars i ls =
    Normal {| eng := executeSignal
                       (pushEquity (eng ls)
                          {| ep_timestamp := bar_t bar;
                             ep_equity := currentEquity;
                             ep_drawdown := drawdown |}) bar signal;
              strat := st';
              peakEquity := peak;
              maxDrawdown := Qmax (maxDrawdown ls) drawdown |}.
Proof.
  intros Hbar Han. unfold loopBody. rewrite Han. simpl.
  apply bar_at_nat in Hbar. rewrite Hbar. reflexivity.
Qed.

End LoopBody.



(** ** The loop *)

Section Loop.
Context {S : Type}.
Implicit Types (this : BacktestEngine S) (ls : LoopState S) (bars : list Bar).

Lemma executeBuy_cases this bar reason :
  (1 <= fillQuantity this bar /\
   executeBuy this bar reason =
     {| config := config this;
        capital := capital this -
          (fillQuantity this bar * bar_c bar + or_zero (commission (config this)));
        position := position this + fillQuantity this bar;
        trades := trades this ++
          [ {| trade_timestamp := bar_t bar;
               trade_action := trade_buy;
               trade_symbol := symbol (config this);
               trade_quantity := fillQuantity this bar;
               trade_price := bar_c bar;
               trade_value := fillQuantity this bar * bar_c bar
                              + or_zero (commission (config this));
               trade_reason := reason_or_default reason |} ];
        equityCurve := equityCurve this |})
  \/ executeBuy this bar reason = this.
Proof.
  destruct (Qlt_le_dec (fillQuantity this bar) 1) as [H|H].
  - right. apply executeBuy_skips. intros H'. exact (Qlt_not_le _ _ H H').
  - left. split; [exact H|]. now apply executeBuy_fills.
Qed.

Lemma executeSell_cases this bar reason :
  (0 < position this /\
   executeSell this bar reason =
     {| config := config this;
        capital := capital this +
          (position this * bar_c bar - or_zero (commission (config this)));
        position := 0;
        trades := trades this ++
          [ {| trade_timestamp := bar_t bar;
               trade_action := trade_sell;
               trade_symbol := symbol (config this);
               trade_quantity := position this;
               trade_price := bar_c bar;
               trade_value := position this * bar_c bar
                              - or_zero (commission (config this));
               trade_reason := reason_or_default reason |} ];
        equityCurve := equityCurve this |})
  \/ executeSell this bar reason = this.
Proof.
  destruct (Qlt_le_dec 0 (position this)) as [H|H].
  - left. split; [exact H|]. now apply executeSell_liquidates.
  - right. now apply executeSell_flat.
Qed.

(** [executeSignal] is one of: the buy that filled (from a flat position),
    the sell of an open position, or nothing. *)
Lemma executeSignal_cases this bar signal :
  (buys this bar signal /\
     executeSignal this bar signal = executeBuy this bar None)
  \/ (sells this signal /\
     executeSignal this bar signal = executeSell this bar None)
  \/ executeSignal this bar signal = this.
Proof.
  destruct (buys_dec this bar signal) as [Hb|Hnb].
  - left. split; [exact Hb|]. now apply executeSignal_buys.
  - destruct (sells_dec this signal) as [Hs|Hns].
    + right. left. split; [exact Hs|]. now apply executeSignal_sells.
    + right. right. now apply executeSignal_noop.
Qed.

Lemma executeSignal_frame this bar signal :
  config (executeSignal this bar signal) = config this /\
  equityCurve (executeSignal this bar signal) = equityCurve this.
Proof.
  destruct (executeSignal_cases this bar signal) as [[Hb ->]|[[Hs ->]| ->]].
  - rewrite executeBuy_fills by apply Hb. split; reflexivity.
  - rewrite executeSell_liquidates by apply Hs. split; reflexivity.
  - split; reflexivity.
Qed.

Lemma executeSell_frame this bar reason :
  config (executeSell this bar reason) = config this /\
  equityCurve (executeSell this bar reason) = equityCurve this.
Proof.
  destruct (executeSell_cases this bar reason) as [[_ ->]| ->];
    split; reflexivity.
Qed.

(** An iteration that completes has read its bar and got a signal. *)
Lemma loopBody_inv bars i ls ls' :
  loopBody bars i ls = Normal ls' ->
  exists bar signal st',
    bars !! i = Some bar /\
    analyze (strategy (config (eng ls))) (strat ls) bars (Z.of_nat i)
      = Normal (signal, st') /\
    ls' =
      let currentEquity := capital (eng ls) + position (eng ls) * bar_c bar in
      let peak := if Qlt_bool (peakEquity ls) currentEquity
                  then currentEquity else peakEquity ls in
      let drawdown := (peak - currentEquity) / peak in
      {| eng := executeSignal
                  (pushEquity (eng ls)
                     {| ep_timestamp := bar_t bar;
                        ep_equity := currentEquity;
                        ep_drawdown := drawdown |}) bar signal;
         strat := st';
         peakEquity := peak;
         maxDrawdown := Qmax (maxDrawdown ls) drawdown |}.
Proof.
  unfold loopBody. intros H.
  apply bind_Normal in H as ([signal st'] & Han & H).
  apply bind_Normal in H as (bar & Hbar & H).
  apply bar_at_nat in Hbar. injection H as <-.
  exists bar, signal, st'. repeat split; assumption.
Qed.

Lemma loopUpTo_S bars n ls :
  loopUpTo bars (Datatypes.S n) ls =
  loopUpTo bars n ls ≫= loopBody bars n.
Proof.
  unfold loopUpTo. rewrite seq_S, foldM_app. simpl.
  destruct (foldM (loopBody bars) (seq 0 n) ls) as [ls'|e]; simpl; [|reflexivity].
  now destruct (loopBody bars n ls').
Qed.

(** A loop that ran [n] iterations ran each shorter prefix. *)
Lemma loopUpTo_prefix bars n m ls ls' :
  loopUpTo bars n ls = Normal ls' -> (m <= n)%nat ->
  exists ls_m, loopUpTo bars m ls = Normal ls_m.
Proof.
  revert ls'. induction n as [|n IH]; intros ls' Hn Hm.
  - assert (m = 0%nat) as -> by lia. eauto.
  - destruct (decide (m = Datatypes.S n)) as [->|Hne]; [eauto|].
    rewrite loopUpTo_S in Hn. apply bind_Normal in Hn as (ls_n & Hn & _).
    apply (IH ls_n Hn). lia.
Qed.

(** An invariant of the loop body holds after any number of iterations. *)
Lemma loopUpTo_invariant (P : LoopState S -> Prop) bars :
  (forall i ls ls', P ls -> loopBody bars i ls = Normal ls' -> P ls') ->
  forall n ls ls', P ls -> loopUpTo bars n ls = Normal ls' -> P ls'.
Proof.
  intros Hstep n. induction n as [|n IH]; intros ls ls' HP Hn.
  - now injection Hn as <-.
  - rewrite loopUpTo_S in Hn. apply bind_Normal in Hn as (ls_n & Hn & Hb).
    eapply Hstep; [|exact Hb]. eapply IH; eassumption.
Qed.

End Loop.

(** ** C3: one equity point per bar *)

Section EquityCurve.
Context {S : Type}.
Implicit Types (this : BacktestEngine S) (ls : LoopState S) (bars : list Bar).

(** The point an iteration pushes, and the peak it leaves. *)
Lemma loopBody_curve bars i ls ls' :
  loopBody bars i ls = Normal ls' ->
  exists bar,
    bars !! i = Some bar /\
    config (eng ls') = config (eng ls) /\
    peakEquity ls' =
      (if Qlt_bool (peakEquity ls) (capital (eng ls) + position (eng ls) * bar_c bar)
       then capital (eng ls) + position (eng ls) * bar_c bar
       else peakEquity ls) /\
    equityCurve (eng ls') = equityCurve (eng ls) ++
      [ {| ep_timestamp := bar_t bar;
           ep_equity := capital (eng ls) + position (eng ls) * bar_c bar;
           ep_drawdown :=
             (peakEquity ls' - (capital (eng ls) + position (eng ls) * bar_c bar))
             / peakEquity ls' |} ].
Proof.
  intros H. apply loopBody_inv in H as (bar & signal & st' & Hbar & _ & ->).
  exists bar. cbn [eng peakEquity].
  split; [exact Hbar|].
  split; [now rewrite (proj1 (executeSignal_frame _ _ _))|].
  split; [reflexivity|].
  now rewrite (proj2 (executeSignal_frame _ _ _)).
Qed.



(** The curve after [n] iterations: the points of the shorter runs, in
    order, after the points the engine already held. *)
Lemma loopUpTo_curve bars n ls ls_n :
  loopUpTo bars n ls = Normal ls_n ->
  length (equityCurve (eng ls_n)) = (length (equityCurve (eng ls)) + n)%nat /\
  forall i, (i < n)%nat ->
    exists bar before after,
      bars !! i = Some bar /\
      loopUpTo bars i ls = Normal before /\
      loopBody bars i before = Normal after /\
      equityCurve (eng ls_n) !! (length (equityCurve (eng ls)) + i)%nat =
        Some {| ep_timestamp := bar_t bar;
                ep_equity := capital (eng before) + position (eng before) * bar_c bar;
                ep_drawdown :=
                  (peakEquity after
                   - (capital (eng before) + position (eng before) * bar_c bar))
                  / peakEquity after |} /\
      take (length (equityCurve (eng ls)) + Datatypes.S i) (equityCurve (eng ls_n))
        = equityCurve (eng after).
Proof.
  revert ls_n. induction n as [|n IH]; intros ls_n Hn.
  - injection Hn as <-. split; [lia|]. intros i Hi. lia.
  - rewrite loopUpTo_S in Hn. apply bind_Normal in Hn as (ls' & Hn & Hb).
    destruct (IH ls' Hn) as [Hlen Hpts].
    destruct (loopBody_curve _ _ _ _ Hb) as (bar & Hbar & _ & _ & Hcurve).
    split; [rewrite Hcurve, length_app, Hlen; simpl; lia|].
    intros i Hi. destruct (decide (i = n)) as [->|Hne].
    + exists bar, ls', ls_n. repeat split; try assumption.
      * rewrite Hcurve, <- Hlen. now rewrite list_lookup_middle.
      * apply take_ge. rewrite Hcurve, length_app, Hlen. simpl. lia.
    + destruct (Hpts i) as (bar_i & before & after & H1 & H2 & H3 & H4 & H5);
        [lia|].
      exists bar_i, before, after. repeat split; try assumption.
      * rewrite Hcurve, lookup_app_l by lia. exact H4.
      * rewrite Hcurve, take_app_le by lia. exact H5.
Qed.

Lemma closeOut_frame this bars this' :
  closeOut this bars = Normal this' ->
  config this' = config this /\ equityCurve this' = equityCurve this.
Proof.
  unfold closeOut. destruct (Qlt_bool 0 (position this)).
  - intros H. apply bind_Normal in H as (lastBar & _ & [= <-]).
    apply executeSell_frame.
  - intros [= <-]. split; reflexivity.
Qed.

(** The steps a completed [run] went through. *)
Lemma run_inv Math_sqrt this st bars res this' st' :
  run Math_sqrt this st bars = Normal (res, this', st') ->
  bars <> [] /\
  exists entry ls,
    loopEntry this st = Normal entry /\
    loopUpTo bars (length bars) entry = Normal ls /\
    closeOut (eng ls) bars = Normal this' /\
    res = generateReport Math_sqrt this' /\
    st' = strat ls.
Proof.
  unfold run. destruct bars as [|b bars]; [discriminate|].
  cbn [length Nat.eqb]. intros H.
  apply bind_Normal in H as (entry & Hentry & H).
  apply bind_Normal in H as (ls & Hloop & H).
  apply bind_Normal in H as (this1 & Hclose & [= <- <- <-]).
  split; [discriminate|]. exists entry, ls. repeat split; assumption.
Qed.

Lemma loopEntry_inv this st entry :
  loopEntry this st = Normal entry ->
  eng entry = this /\ peakEquity entry = initialCapital (config this) /\
  maxDrawdown entry = 0.
Proof.
  unfold loopEntry. intros H.
  apply bind_Normal in H as (st1 & _ & [= <-]). repeat split.
Qed.

Lemma generateReport_fields Math_sqrt this :
  equity_curve (generateReport Math_sqrt this) = equityCurve this /\
  res_trades (generateReport Math_sqrt this) = trades this /\
  max_drawdown (generateReport Math_sqrt this)
    = Math_max (ep_drawdown <$> equityCurve this) /\
  final_capital (generateReport Math_sqrt this)
    = capital this + position this * or_zero (trade_price <$> last (trades this)).
Proof.
  unfold generateReport.
  destruct (countWins _ _). repeat split.
Qed.

End EquityCurve.



(** ** Position and cash through the loop *)

Section Accounting.
Context {S : Type}.
Implicit Types (this : BacktestEngine S) (ls : LoopState S) (bars : list Bar).

Lemma fillQuantity_pos_of_ge_1 this bar :
  1 <= fillQuantity this bar -> 0 < fillQuantity this bar.
Proof. intros H. apply Qlt_le_trans with 1; [reflexivity|exact H]. Qed.

Lemma executeSignal_position_nonneg this bar signal :
  0 <= position this -> 0 <= position (executeSignal this bar signal).
Proof.
  intros Hp.
  destruct (executeSignal_cases this bar signal) as [[Hb ->]|[[Hs ->]| ->]].
  - rewrite executeBuy_fills by apply Hb. cbn [position].
    destruct Hb as (_ & _ & _ & Hq). apply fillQuantity_pos_of_ge_1 in Hq.
    lra.
  - rewrite executeSell_liquidates by apply Hs. apply Qle_refl.
  - exact Hp.
Qed.

Lemma loopBody_position_nonneg bars i ls ls' :
  0 <= position (eng ls) -> loopBody bars i ls = Normal ls' ->
  0 <= position (eng ls').
Proof.
  intros Hp H. apply loopBody_inv in H as (bar & signal & st' & _ & _ & ->).
  cbn [eng]. now apply executeSignal_position_nonneg.
Qed.

(** The configuration is never reassigned. *)
Lemma loopUpTo_config bars n ls ls' :
  loopUpTo bars n ls = Normal ls' -> config (eng ls') = config (eng ls).
Proof.
  intros H.
  apply (loopUpTo_invariant (fun l => config (eng l) = config (eng ls)) bars)
    with (n := n) (ls := ls); [|reflexivity|exact H].
  intros i l l' Hl Hb.
  destruct (loopBody_curve _ _ _ _ Hb) as (_ & _ & Hc & _). congruence.
Qed.

(** As long as the trade log is empty, cash and position are the ones the
    engine started with. *)
Lemma executeSignal_no_trade this bar signal :
  trades (executeSignal this bar signal) = [] ->
  trades this = [] /\
  capital (executeSignal this bar signal) = capital this /\
  position (executeSignal this bar signal) = position this.
Proof.
  destruct (executeSignal_cases this bar signal) as [[Hb ->]|[[Hs ->]| ->]].
  - rewrite executeBuy_fills by apply Hb. cbn [trades].
    intros H. now destruct (trades this).
  - rewrite executeSell_liquidates by apply Hs. cbn [trades].
    intros H. now destruct (trades this).
  - intros H. repeat split. exact H.
Qed.

Lemma loopBody_no_trade bars i ls ls' :
  loopBody bars i ls = Normal ls' -> trades (eng ls') = [] ->
  trades (eng ls) = [] /\ capital (eng ls') = capital (eng ls) /\
  position (eng ls') = position (eng ls).
Proof.
  intros H. apply loopBody_inv in H as (bar & signal & st' & _ & _ & ->).
  cbn [eng]. intros Ht. apply executeSignal_no_trade in Ht. exact Ht.
Qed.

Lemma loopUpTo_no_trade bars n ls ls' :
  loopUpTo bars n ls = Normal ls' -> trades (eng ls') = [] ->
  capital (eng ls') = capital (eng ls) /\ position (eng ls') = position (eng ls).
Proof.
  revert ls'. induction n as [|n IH]; intros ls' H Ht.
  - injection H as <-. split; reflexivity.
  - rewrite loopUpTo_S in H. apply bind_Normal in H as (ls_n & Hn & Hb).
    destruct (loopBody_no_trade _ _ _ _ Hb Ht) as (Ht' & -> & ->).
    now apply IH.
Qed.

(** The last bar, as [closeOut] reads it. *)
Lemma bar_at_last bars lastBar :
  bar_at bars (Z.of_nat (length bars) - 1) = Normal lastBar ->
  last bars = Some lastBar.
Proof.
  destruct bars as [|b bars] using rev_ind.
  - discriminate.
  - rewrite length_app, last_snoc. simpl.
    replace (Z.of_nat (length bars + 1) - 1)%Z with (Z.of_nat (length bars)) by lia.
    rewrite bar_at_nat, list_lookup_middle by reflexivity. congruence.
Qed.

Lemma bar_at_last_returns bars :
  bars <> [] -> returns (bar_at bars (Z.of_nat (length bars) - 1)).
Proof.
  intros Hne. apply bar_at_in_range.
  destruct bars; [contradiction|]. simpl length. lia.
Qed.

Lemma closeOut_cases this bars this' :
  closeOut this bars = Normal this' ->
  (0 < position this /\
   exists lastBar, last bars = Some lastBar /\
     this' = executeSell this lastBar (Some "End of backtest"))
  \/ (position this <= 0 /\ this' = this).
Proof.
  unfold closeOut. destruct (Qlt_bool 0 (position this)) eqn:E.
  - apply Qlt_bool_iff in E. intros H.
    apply bind_Normal in H as (lastBar & Hlast & [= <-]).
    left. split; [exact E|]. exists lastBar. split; [|reflexivity].
    now apply bar_at_last.
  - apply Qlt_bool_false in E. intros [= <-]. now right.
Qed.

End Accounting.

(** ** C2: the close-out at the end of the run *)

(** C2.  In a run of a fresh engine over a non-empty bar sequence: if the
    position is still positive after the last iteration of the loop, the
    whole position is sold at the close of the last bar with reason
    "End of backtest" (otherwise the engine is left as the loop left it) and
    the report is built from the engine after that; the position is then 0,
    [final_capital] is cash + position * (price of the last trade), which is
    the cash, and with an empty trade log it is the initial capital. *)
Theorem end_of_run_close_out {S : Type} (Math_sqrt : Q -> Q)
    (cfg : BacktestConfig S) (st : S) (bars : list Bar)
    (res : BacktestResult) (this' : BacktestEngine S) (st' : S) :
  run Math_sqrt (constructor cfg) st bars = Normal (res, this', st') ->
  bars <> [] /\
  exists entry ls,
    loopEntry (constructor cfg) st = Normal entry /\
    loopUpTo bars (length bars) entry = Normal ls /\
    (0 < position (eng ls) ->
       exists lastBar, last bars = Some lastBar /\
         capital this' = capital (eng ls) +
           (position (eng ls) * bar_c lastBar - or_zero (commission cfg)) /\
         trades this' = trades (eng ls) ++
           [ {| trade_timestamp := bar_t lastBar;
                trade_action := trade_sell;
                trade_symbol := symbol cfg;
                trade_quantity := position (eng ls);
                trade_price := bar_c lastBar;
                trade_value := position (eng ls) * bar_c lastBar
                               - or_zero (commission cfg);
                trade_reason := "End of backtest" |} ]) /\
    (~ 0 < position (eng ls) -> this' = eng ls) /\
    res = generateReport Math_sqrt this' /\
    position this' == 0 /\
    final_capital res =
      capital this' + position this' * or_zero (trade_price <$> last (trades this')) /\
    final_capital res == capital this' /\
    (res_trades res = [] -> final_capital res == initialCapital cfg).
Proof.
  intros Hrun.
  destruct (run_inv _ _ _ _ _ _ _ Hrun)
    as (Hne & entry & ls & Hentry & Hloop & Hclose & Hres & _).
  subst res. clear Hrun.
  destruct (loopEntry_inv _ _ _ Hentry) as (Heng & _ & _).
  pose proof (loopUpTo_config _ _ _ _ Hloop) as Hcfg.
  rewrite Heng in Hcfg. cbn [constructor config] in Hcfg.
  assert (Hpos : 0 <= position (eng ls)).
  { apply (loopUpTo_invariant (fun l => 0 <= position (eng l)) bars
             (fun i l l' => loopBody_position_nonneg bars i l l')
             (length bars) entry); [|exact Hloop].
    rewrite Heng. apply Qle_refl. }
  split; [exact Hne|]. exists entry, ls.
  split; [exact Hentry|]. split; [exact Hloop|].
  destruct (generateReport_fields Math_sqrt this') as (_ & Htr & _ & Hfinal).
  assert (Hzero : position this' == 0).
  { destruct (closeOut_cases _ _ _ Hclose) as [(Hp & lastBar & _ & ->)|(Hp & ->)].
    - rewrite executeSell_liquidates by exact Hp. reflexivity.
    - now apply Qle_antisym. }
  split; [|split; [|split; [reflexivity|split; [exact Hzero|split; [exact Hfinal|]]]]].
  - intros Hp.
    destruct (closeOut_cases _ _ _ Hclose) as [(_ & lastBar & Hlast & ->)|(Hp' & _)];
      [|exfalso; exact (Qlt_not_le _ _ Hp Hp')].
    exists lastBar. split; [exact Hlast|].
    rewrite executeSell_liquidates by exact Hp. rewrite Hcfg. split; reflexivity.
  - intros Hp.
    destruct (closeOut_cases _ _ _ Hclose) as [(Hp' & _)|(_ & ->)];
      [contradiction|reflexivity].
  - assert (Hcash : final_capital (generateReport Math_sqrt this') == capital this').
    { rewrite Hfinal, Hzero. ring. }
    split; [exact Hcash|].
    rewrite Htr. intros Hnil. rewrite Hcash.
    destruct (closeOut_cases _ _ _ Hclose) as [(Hp & lastBar & _ & ->)|(_ & ->)].
    + rewrite executeSell_liquidates in Hnil by exact Hp. cbn [trades] in Hnil.
      now destruct (trades (eng ls)).
    + destruct (loopUpTo_no_trade _ _ _ _ Hloop Hnil) as [-> _].
      rewrite Heng. reflexivity.
Qed.

Lemma end_of_run_close_out_witness :
  exists res this' st',
    runDip = Normal (res, this', st') /\ position this' == 0 /\
    final_capital res == 1200 /\
    trade_reason <$> last (res_trades res) = Some "End of backtest".
Proof.
  destruct runDip as [[[res this'] st']|e] eqn:E; [|vm_compute in E; discriminate].
  exists res, this', st'. split; [reflexivity|].
  destruct (end_of_run_close_out isqrt configDip tt barsDip res this' st' E)
    as (_ & entry & ls & _ & _ & _ & _ & _ & Hzero & _ & Hcash & _).
  split; [exact Hzero|]. rewrite Hcash.
  vm_compute in E. injection E as <- <- _. split; reflexivity.
Defined.

(** ** C7: the reported maximum drawdown *)

Lemma Qmax_cases (x y : Q) : Qmax x y = x \/ Qmax x y = y.
Proof.
  unfold Qmax, GenericMinMax.gmax. destruct (x ?= y); auto.
Qed.






(** ** C10: bounds on position and cash *)

Section Bounds.
Context {S : Type}.
Implicit Types (this : BacktestEngine S) (ls : LoopState S) (bars : list Bar).



End Bounds.



(** ** C4: when [run] throws *)

Section Totality.
Context {S : Type}.
Implicit Types (this : BacktestEngine S) (ls : LoopState S) (bars : list Bar).

Lemma loopBody_returns bars i ls :
  strategy_answers (strategy (config (eng ls))) bars ->
  (i < length bars)%nat -> returns (loopBody bars i ls).
Proof.
  intros [_ Han] Hi. destruct (Han (strat ls) i Hi) as [[signal st'] Hsig].
  destruct (lookup_lt_is_Some_2 bars i Hi) as [bar Hbar].
  eexists. exact (loopBody_eq bars i ls bar signal st' Hbar Hsig).
Qed.

Lemma loopUpTo_returns bars n ls :
  strategy_answers (strategy (config (eng ls))) bars ->
  (n <= length bars)%nat -> returns (loopUpTo bars n ls).
Proof.
  intros Hans. induction n as [|n IH]; intros Hn.
  - eexists. reflexivity.
  - destruct IH as [ls_n Hls]; [lia|].
    rewrite loopUpTo_S, Hls. simpl. apply loopBody_returns; [|lia].
    now rewrite (loopUpTo_config _ _ _ _ Hls).
Qed.

Lemma loopEntry_returns this st bars :
  strategy_answers (strategy (config this)) bars -> returns (loopEntry this st).
Proof.
  intros [Hinit _]. unfold loopEntry.
  destruct (initialize (strategy (config this))) as [init|].
  - destruct (Hinit init st eq_refl) as [st1 ->]. eexists. reflexivity.
  - eexists. reflexivity.
Qed.

Lemma closeOut_returns this bars : bars <> [] -> returns (closeOut this bars).
Proof.
  intros Hne. unfold closeOut. destruct (Qlt_bool 0 (position this)).
  - destruct (bar_at_last_returns bars Hne) as [lastBar ->]. eexists. reflexivity.
  - eexists. reflexivity.
Qed.

Lemma run_returns Math_sqrt this st bars :
  strategy_answers (strategy (config this)) bars -> bars <> [] ->
  returns (run Math_sqrt this st bars).
Proof.
  intros Hans Hne. unfold run.
  destruct bars as [|b bars'] eqn:Eb; [contradiction|]. rewrite <- Eb in *.
  replace (length bars =? 0)%nat with false by (now rewrite Eb).
  destruct (loopEntry_returns this st bars Hans) as [entry Hentry].
  rewrite Hentry. simpl.
  destruct (loopEntry_inv _ _ _ Hentry) as (Heng & _).
  destruct (loopUpTo_returns bars (length bars) entry) as [ls Hls];
    [now rewrite Heng|lia|].
  rewrite Hls. simpl.
  destruct (closeOut_returns (eng ls) bars) as [this' ->]; [now rewrite Eb|].
  eexists. reflexivity.
Qed.

Lemma not_returns_and_throws {A} (m : completion A) : returns m -> ~ throws m.
Proof. intros [a ->] [e H]. discriminate. Qed.

End Totality.

(** C4, as the code has it.  For an engine in any state and any initial
    capital, positive or not: on an empty bar sequence [run] throws
    "No bars provided for backtest"; on a non-empty one it returns a result
    as soon as the strategy answers each bar; so, for such a strategy, it
    throws exactly when the bar sequence is empty.  The initial capital is
    not examined. *)
Theorem run_throws_iff_no_bars {S : Type} (Math_sqrt : Q -> Q)
    (this : BacktestEngine S) (st : S) (bars : list Bar) :
  strategy_answers (strategy (config this)) bars ->
  (bars = [] ->
   run Math_sqrt this st bars = Throw (Error "No bars provided for backtest")) /\
  (bars <> [] -> returns (run Math_sqrt this st bars)) /\
  (throws (run Math_sqrt this st bars) <-> bars = []).
Proof.
  intros Hans.
  assert (H1 : bars = [] ->
               run Math_sqrt this st bars
               = Throw (Error "No bars provided for backtest"))
    by (intros ->; reflexivity).
  assert (H2 : bars <> [] -> returns (run Math_sqrt this st bars))
    by (intros Hne; now apply run_returns).
  split; [exact H1|]. split; [exact H2|]. split.
  - intros Hthrow. destruct bars as [|b bars]; [reflexivity|].
    exfalso. apply (not_returns_and_throws _ (H2 ltac:(discriminate)) Hthrow).
  - intros Hnil. eexists. exact (H1 Hnil).
Qed.

Lemma scripted_answers (script : list (SignalAction * Q)) (bars : list Bar) :
  strategy_answers (scripted script) bars.
Proof.
  split; [discriminate|].
  intros st i Hi. simpl.
  destruct (lookup_lt_is_Some_2 bars i Hi) as [bar Hbar].
  apply bar_at_nat in Hbar. rewrite Hbar. simpl.
  destruct (default (hold, 0) (script !! Z.to_nat (Z.of_nat i))). eexists. reflexivity.
Qed.

(** ** C8: two runs from fresh instances *)




(** Freshness matters: the engine a run leaves behind keeps its trade log
    and equity curve, and a second [run] on it reports both runs. *)
Lemma run_on_used_engine_accumulates :
  exists res1 e1 st1 res2 e2 st2,
    run3 = Normal (res1, e1, st1) /\
    run isqrt e1 st1 bars3 = Normal (res2, e2, st2) /\
    length (equity_curve res1) = 3%nat /\ length (equity_curve res2) = 6%nat /\
    total_trades res1 = 2%nat /\ total_trades res2 = 4%nat.
Proof.
  eexists _, _, _, _, _, _. split; [vm_compute; reflexivity|].
  split; [vm_compute; reflexivity|]. repeat split.
Qed.

(** ** Indicators *)

Lemma fold_left_Qplus_acc (xs : list Q) (a : Q) :
  fold_left Qplus xs a == a + Qsum xs.
Proof.
  unfold Qsum. revert a. induction xs as [|x xs IH]; intros a; simpl.
  - ring.
  - rewrite (IH (a + x)), (IH (0 + x)). ring.
Qed.

Lemma Qsum_cons (x : Q) (xs : list Q) : Qsum (x :: xs) == x + Qsum xs.
Proof.
  unfold Qsum at 1. simpl. rewrite fold_left_Qplus_acc. ring.
Qed.

Lemma close_bar_at (bars : list Bar) (i : Z) (b : Bar) :
  bar_at bars i = Normal b -> close bars i = bar_c b.
Proof. unfold close. now intros ->. Qed.

Lemma for_range_window {A} (period endIndex : Z) (body : Z -> A -> completion A)
    (acc : A) :
  for_range (endIndex - period + 1) endIndex body acc
  = foldM body (window period endIndex) acc.
Proof.
  unfold for_range, window. f_equal. f_equal. lia.
Qed.

Lemma window_in_range (bars : list Bar) (period endIndex i : Z) :
  (period - 1 <= endIndex < Z.of_nat (length bars))%Z ->
  i ∈ window period endIndex -> (0 <= i < Z.of_nat (length bars))%Z.
Proof.
  intros H Hi. unfold window in Hi. apply elem_of_seqZ in Hi. lia.
Qed.

(** The summing loop of [calculateSMA] over in-range indices. *)
Lemma calculateSMA_loop (bars : list Bar) (idxs : list Z) (sum : Q) :
  (forall i, i ∈ idxs -> (0 <= i < Z.of_nat (length bars))%Z) ->
  exists sum', foldM (calculateSMA_body bars) idxs sum = Normal sum' /\
               sum' == sum + Qsum (close bars <$> idxs).
Proof.
  revert sum. induction idxs as [|i idxs IH]; intros sum Hin.
  - exists sum. split; [reflexivity|]. unfold Qsum. simpl. ring.
  - destruct (bar_at_in_range bars i) as [b Hb]; [apply Hin; left|].
    destruct (IH (sum + bar_c b)) as (sum' & Hrun & Heq).
    { intros j Hj. apply Hin. now right. }
    exists sum'. split.
    + cbn [foldM].
      replace (calculateSMA_body bars i sum) with (Normal (sum + bar_c b))
        by (unfold calculateSMA_body; now rewrite Hb).
      exact Hrun.
    + rewrite Heq, fmap_cons, Qsum_cons, (close_bar_at _ _ _ Hb). ring.
Qed.

(** [calculateSMA] never reads outside the bars when [endIndex] is the index
    of a bar or the one before the first. *)
Lemma calculateSMA_returns (bars : list Bar) (period endIndex : Z) :
  (-1 <= endIndex < Z.of_nat (length bars))%Z ->
  returns (calculateSMA bars period endIndex).
Proof.
  intros Hend. unfold calculateSMA.
  destruct (Z.ltb_spec endIndex (period - 1)) as [Hlt|Hge]; [eexists; reflexivity|].
  rewrite for_range_window.
  destruct (calculateSMA_loop bars (window period endIndex) 0) as (sum' & -> & _).
  - intros i Hi. unfold window in Hi. apply elem_of_seqZ in Hi. lia.
  - eexists. reflexivity.
Qed.


(** The loop of [calculateRSI]: gains and losses of the changes at [idxs]. *)
Lemma calculateRSI_loop (bars : list Bar) (idxs : list Z) (gains losses : Q) :
  (forall i, i ∈ idxs -> (1 <= i < Z.of_nat (length bars))%Z) ->
  exists gains' losses',
    foldM (calculateRSI_body bars) idxs (gains, losses) = Normal (gains', losses') /\
    gains' == gains
      + Qsum (gain <$> ((fun i => close bars i - close bars (i - 1)) <$> idxs)) /\
    losses' == losses
      + Qsum (loss <$> ((fun i => close bars i - close bars (i - 1)) <$> idxs)).
Proof.
  revert gains losses. induction idxs as [|i idxs IH]; intros gains losses Hin.
  - exists gains, losses. split; [reflexivity|]. unfold Qsum. simpl. split; ring.
  - assert (Hi : (1 <= i < Z.of_nat (length bars))%Z) by (apply Hin; left).
    destruct (bar_at_in_range bars i) as [bi Hbi]; [lia|].
    destruct (bar_at_in_range bars (i - 1)) as [bp Hbp]; [lia|].
    assert (Htail : forall j, j ∈ idxs -> (1 <= j < Z.of_nat (length bars))%Z)
      by (intros j Hj; apply Hin; now right).
    set (f := fun i => close bars i - close bars (i - 1)).
    assert (Hf : f i = bar_c bi - bar_c bp).
    { unfold f. now rewrite (close_bar_at _ _ _ Hbi), (close_bar_at _ _ _ Hbp). }
    cbn [foldM].
    replace (calculateRSI_body bars i (gains, losses))
      with (if Qlt_bool 0 (bar_c bi - bar_c bp)
            then Normal (gains + (bar_c bi - bar_c bp), losses)
            else Normal (gains, losses + Qabs (bar_c bi - bar_c bp)))
      by (unfold calculateRSI_body; now rewrite Hbi, Hbp).
    destruct (Qlt_bool 0 (bar_c bi - bar_c bp)) eqn:E; cbn [mbind completion_bind].
    + destruct (IH (gains + (bar_c bi - bar_c bp)) losses Htail)
        as (g' & l' & Hrun & Hg & Hl).
      exists g', l'. split; [exact Hrun|].
      rewrite !fmap_cons, Hf. unfold f. split.
      * rewrite Hg, Qsum_cons. unfold gain at 2. rewrite E. ring.
      * rewrite Hl, Qsum_cons. unfold loss at 2. rewrite E. ring.
    + destruct (IH gains (losses + Qabs (bar_c bi - bar_c bp)) Htail)
        as (g' & l' & Hrun & Hg & Hl).
      exists g', l'. split; [exact Hrun|].
      rewrite !fmap_cons, Hf. unfold f. split.
      * rewrite Hg, Qsum_cons. unfold gain at 2. rewrite E. ring.
      * rewrite Hl, Qsum_cons. unfold loss at 2. rewrite E. ring.
Qed.

(** ** C6: the RSI indicator *)



(** ** C5: the SMA crossover strategy *)



(** The strategy never throws at the index of a bar, so a backtest that
    drives it over a non-empty bar sequence returns. *)
Lemma SMACrossover_analyze_returns (this : SMAParameters) (bars : list Bar)
    (index : Z) :
  (0 <= index < Z.of_nat (length bars))%Z ->
  returns (SMACrossover_analyze this bars index).
Proof.
  intros Hrange. unfold SMACrossover_analyze.
  destruct (bar_at_in_range bars index Hrange) as [bar Hbar]. rewrite Hbar.
  destruct (index <? longPeriod this)%Z; [eexists; reflexivity|].
  destruct (calculateSMA_returns bars (shortPeriod this) index) as [cs ->]; [lia|].
  destruct (calculateSMA_returns bars (longPeriod this) index) as [cl ->]; [lia|].
  destruct (calculateSMA_returns bars (shortPeriod this) (index - 1)) as [ps ->];
    [lia|].
  destruct (calculateSMA_returns bars (longPeriod this) (index - 1)) as [pl ->];
    [lia|].
  cbn [mbind completion_bind].
  destruct (Qle_bool ps pl && Qlt_bool cl cs); [eexists; reflexivity|].
  destruct (Qle_bool pl ps && Qlt_bool cs cl); eexists; reflexivity.
Qed.

Lemma SMACrossoverStrategy_answers (bars : list Bar) :
  strategy_answers SMACrossoverStrategy bars.
Proof.
  split.
  - intros init st [= <-]. eexists. reflexivity.
  - intros st i Hi. cbn [analyze SMACrossoverStrategy].
    destruct (SMACrossover_analyze_returns st bars (Z.of_nat i)) as [signal ->];
      [lia|].
    eexists. reflexivity.
Qed.

(** A backtest of the SMA crossover strategy throws on an empty bar
    sequence only. *)
Corollary run_SMACrossover_returns (Math_sqrt : Q -> Q)
    (cfg : BacktestConfig SMAParameters) (st : SMAParameters) (bars : list Bar) :
  strategy cfg = SMACrossoverStrategy -> bars <> [] ->
  returns (run Math_sqrt (constructor cfg) st bars).
Proof.
  intros Hstrat Hne. apply run_returns; [|exact Hne].
  cbn [constructor config]. rewrite Hstrat. apply SMACrossoverStrategy_answers.
Qed.

(** ** C4: a non-positive initial capital *)

Lemma run_throws_iff_no_bars_witness :
  strategy_answers (strategy (config (constructor configNegative))) barsOne /\
  returns (run isqrt (constructor configNegative) defaultSMAParameters barsOne).
Proof.
  split; [apply SMACrossoverStrategy_answers|].
  refine (proj1 (proj2 (run_throws_iff_no_bars isqrt (constructor configNegative)
                          defaultSMAParameters barsOne _)) _).
  - apply SMACrossoverStrategy_answers.
  - discriminate.
Defined.

(** The claim as the specification words it fails: with an initial capital
    of -100 and the SMA crossover strategy with its default periods, the
    constructor builds the engine and [run] returns a result over one bar. *)
Lemma run_accepts_nonpositive_capital :
  initialCapital configNegative <= 0 /\
  barsOne <> [] /\
  (exists res this' st',
     run isqrt (constructor configNegative) defaultSMAParameters barsOne
       = Normal (res, this', st') /\
     final_capital res == -100 /\ total_trades res = 0%nat) /\
  ~ throws (run isqrt (constructor configNegative) defaultSMAParameters barsOne).
Proof.
  split; [vm_compute; discriminate|]. split; [discriminate|]. split.
  - eexists _, _, _. split; [vm_compute; reflexivity|]. split; reflexivity.
  - intros [e H]. vm_compute in H. discriminate.
Qed.

(** ** C9: the shared instances of the registry *)

Lemma getStrategy_registered (id : string) (l : loc)
    (params : option (gmap string Q)) (h : heap) :
  strategies !! id = Some l ->
  getStrategy id params h =
    (Some l, match params with
             | Some ps => alter (assign_parameters ps) l h
             | None => h
             end).
Proof. intros H. unfold getStrategy. rewrite H. now destruct params. Qed.

Lemma getStrategy_no_params_heap (name : string) (h : heap) :
  (getStrategy name None h).2 = h.
Proof. unfold getStrategy. now destruct (strategies !! name). Qed.

Lemma getStrategy_each_heap (names : list string) (h : heap) :
  getStrategy_each names h = h.
Proof.
  unfold getStrategy_each. induction names as [|name names IH]; simpl;
    [reflexivity|].
  now rewrite getStrategy_no_params_heap.
Qed.

(** C9.  For a registered identifier whose instance sits at location [l]:
    [getStrategy id params] returns [l] itself, allocates nothing, and
    leaves at [l] the object with [params] merged over its parameters; after
    that, and after any further calls without parameters, [getStrategy id]
    again returns [l], and every override of [params] is still among the
    parameters of the object there. *)
Theorem getStrategy_overrides_persist (id : string) (l : loc)
    (params : gmap string Q) (h : heap) (o : StrategyObject)
    (others : list string) :
  strategies !! id = Some l -> h !! l = Some o ->
  let (first, h1) := getStrategy id (Some params) h in
  let (second, h2) := getStrategy id None (getStrategy_each others h1) in
  first = Some l /\ second = Some l /\
  dom h1 = dom h /\
  (forall l', l' <> l -> h1 !! l' = h !! l') /\
  h1 !! l = Some (assign_parameters params o) /\
  h2 = h1 /\
  exists o2, h2 !! l = Some o2 /\
    obj_parameters o2 = params ∪ obj_parameters o /\
    (forall k v, params !! k = Some v -> obj_parameters o2 !! k = Some v) /\
    (forall k, params !! k = None -> obj_parameters o2 !! k = obj_parameters o !! k).
Proof.
  intros Hreg Hobj.
  rewrite (getStrategy_registered id l (Some params) h Hreg).
  rewrite getStrategy_each_heap.
  rewrite (getStrategy_registered id l None _ Hreg).
  assert (Hl : alter (assign_parameters params) l h !! l
               = Some (assign_parameters params o)).
  { now rewrite lookup_alter_eq, Hobj. }
  split; [reflexivity|]. split; [reflexivity|].
  split; [apply dom_alter_L|].
  split; [intros l' Hne; now apply lookup_alter_ne|].
  split; [exact Hl|]. split; [reflexivity|].
  exists (assign_parameters params o). split; [exact Hl|].
  cbn [assign_parameters obj_parameters]. split; [reflexivity|]. split.
  - intros k v Hk. now apply lookup_union_Some_l.
  - intros k Hk. now apply lookup_union_r.
Qed.

Lemma getStrategy_overrides_persist_witness :
  strategies !! "sma-crossover" = Some sma_loc /\
  initial_heap !! sma_loc = Some defaultSMAObject /\
  exists h1 o2,
    getStrategy "sma-crossover" (Some overrideLong) initial_heap = (Some sma_loc, h1) /\
    getStrategy "sma-crossover" None h1 = (Some sma_loc, h1) /\
    h1 !! sma_loc = Some o2 /\
    obj_parameters o2 !! "longPeriod" = Some 5 /\
    obj_parameters o2 !! "shortPeriod" = Some 10.
Proof.
  assert (Hreg : strategies !! "sma-crossover" = Some sma_loc) by reflexivity.
  assert (Hobj : initial_heap !! sma_loc = Some defaultSMAObject) by reflexivity.
  split; [exact Hreg|]. split; [exact Hobj|].
  pose proof (getStrategy_overrides_persist "sma-crossover" sma_loc overrideLong
                initial_heap defaultSMAObject [] Hreg Hobj) as H.
  destruct (getStrategy "sma-crossover" (Some overrideLong) initial_heap)
    as [first h1].
  cbn [getStrategy_each foldl] in H.
  destruct (getStrategy "sma-crossover" None h1) as [second h2].
  destruct H as (-> & -> & _ & _ & _ & -> & o2 & Ho2 & _ & Hin & Hout).
  exists h1, o2. repeat (split; [reflexivity|]). split; [exact Ho2|]. split.
  - apply Hin. reflexivity.
  - rewrite Hout by reflexivity. reflexivity.
Defined.


(** ** The scenarios of the specification, run on the model *)

(** Buy-then-sell: closes 100, 100, 120, a buy at bar 0 and a sell at bar 2,
    1000 in cash and no commission. *)
Example scenario_buy_then_sell :
  exists res this' st',
    run3 = Normal (res, this', st') /\
    (trade_action <$> res_trades res) = [trade_buy; trade_sell] /\
    (trade_quantity <$> res_trades res) = [10; 10] /\
    (trade_price <$> res_trades res) = [100; 120] /\
    final_capital res == 1200 /\ total_return res == 200 /\
    total_return_pct res == 20 /\ total_trades res = 2%nat /\
    winning_trades res = 1%nat /\ win_rate res == 100.
Proof.
  eexists _, _, _. split; [vm_compute; reflexivity|]. repeat split.
Qed.

(** Forced liquidation: a buy on bar 0 and no sell signal still gives two
    trades, the second the sale at the last close. *)
Example scenario_forced_liquidation :
  exists res this' st',
    runDip = Normal (res, this', st') /\
    (trade_action <$> res_trades res) = [trade_buy; trade_sell] /\
    (trade_reason <$> res_trades res) = ["Strategy signal"; "End of backtest"] /\
    position this' = 0 /\ final_capital res == 1200.
Proof.
  eexists _, _, _. split; [vm_compute; reflexivity|]. repeat split.
Qed.

(** Boundary: with less capital than the price of one share no buy ever
    fills, and the final capital is the initial one. *)
Example scenario_insufficient_capital :
  exists res this' st',
    run isqrt (constructor configPoor) tt bars3 = Normal (res, this', st') /\
    total_trades res = 0%nat /\ final_capital res == initialCapital configPoor.
Proof.
  eexists _, _, _. split; [vm_compute; reflexivity|]. repeat split.
Qed.

(** * Further properties of the indicators (strategies/base.ts) *)

Lemma Qsum_nil : Qsum [] == 0.
Proof. reflexivity. Qed.









(** ** [calculateEMA] *)

Lemma calculateEMA_fuel_enough (bars : list Bar) (period : Z) (fuel : nat) :
  forall endIndex,
    (Z.to_nat (endIndex - (period - 1)) <= fuel)%nat ->
    calculateEMA_fuel fuel bars period endIndex = calculateEMA bars period endIndex.
Proof.
  unfold calculateEMA.
  induction fuel as [|fuel IH]; intros endIndex Hfuel.
  - now replace (Z.to_nat (endIndex - (period - 1))) with 0%nat by lia.
  - destruct (Z.to_nat (endIndex - (period - 1))) as [|k] eqn:Ek.
    + cbn [calculateEMA_fuel].
      destruct (Z.ltb_spec endIndex (period - 1)); [reflexivity|].
      destruct (Z.eqb_spec endIndex (period - 1)); [reflexivity|lia].
    + cbn [calculateEMA_fuel].
      destruct (Z.ltb_spec endIndex (period - 1)); [reflexivity|].
      destruct (Z.eqb_spec endIndex (period - 1)); [reflexivity|].
      assert (Hk : k = Z.to_nat (endIndex - 1 - (period - 1))) by lia.
      rewrite (IH (endIndex - 1)%Z) by lia. now rewrite Hk.
Qed.

Lemma calculateEMA_sentinel (bars : list Bar) (period endIndex : Z) :
  (endIndex < period - 1)%Z -> calculateEMA bars period endIndex = Normal 0.
Proof.
  intros H. unfold calculateEMA.
  destruct (Z.to_nat (endIndex - (period - 1))); cbn [calculateEMA_fuel];
    destruct (Z.ltb_spec endIndex (period - 1)); try reflexivity; lia.
Qed.

Lemma calculateEMA_seed (bars : list Bar) (period endIndex : Z) :
  endIndex = (period - 1)%Z ->
  calculateEMA bars period endIndex = calculateSMA bars period endIndex.
Proof.
  intros ->. unfold calculateEMA.
  replace (Z.to_nat (period - 1 - (period - 1))) with 0%nat by lia.
  cbn [calculateEMA_fuel].
  destruct (Z.ltb_spec (period - 1) (period - 1)); [lia|].
  destruct (Z.eqb_spec (period - 1) (period - 1)); [reflexivity|lia].
Qed.

Lemma calculateEMA_step (bars : list Bar) (period endIndex : Z) :
  (period - 1 < endIndex)%Z ->
  calculateEMA bars period endIndex =
    previousEMA ← calculateEMA bars period (endIndex - 1);
    b ← bar_at bars endIndex;
    Normal ((bar_c b - previousEMA) * (2 / (inject_Z period + 1)) + previousEMA).
Proof.
  intros H. unfold calculateEMA at 1.
  destruct (Z.to_nat (endIndex - (period - 1))) as [|k] eqn:Ek; [lia|].
  cbn [calculateEMA_fuel].
  destruct (Z.ltb_spec endIndex (period - 1)); [lia|].
  destruct (Z.eqb_spec endIndex (period - 1)); [lia|].
  now rewrite calculateEMA_fuel_enough by lia.
Qed.



Lemma calculateEMA_returns (bars : list Bar) (period : Z) (n : nat) :
  (0 < period)%Z ->
  forall endIndex,
    endIndex = (period - 1 + Z.of_nat n)%Z ->
    (endIndex < Z.of_nat (length bars))%Z ->
    returns (calculateEMA bars period endIndex).
Proof.
  intros Hpos. induction n as [|n IH]; intros endIndex -> Hlen.
  - rewrite calculateEMA_seed by lia. apply calculateSMA_returns. lia.
  - rewrite calculateEMA_step by lia.
    destruct (IH (period - 1 + Z.of_nat n)%Z) as (prev & Hprev); [reflexivity|lia|].
    replace (period - 1 + Z.of_nat (Datatypes.S n) - 1)%Z
      with (period - 1 + Z.of_nat n)%Z by lia.
    rewrite Hprev. cbn [mbind completion_bind].
    destruct (bar_at_in_range bars (period - 1 + Z.of_nat (Datatypes.S n)))
      as [b ->]; [lia|].
    eexists. reflexivity.
Qed.

(** X2.  [calculateEMA] answers the sentinel 0 when [endIndex < period - 1]
    and the SMA at [endIndex = period - 1]; for a positive period and a later
    index of a bar it returns, the recursion reaching its seed, and its value
    is (close - previous) * 2 / (period + 1) + previous, where previous is
    its own value one bar earlier. *)
Theorem calculateEMA_recurrence (bars : list Bar) (period endIndex : Z) :
  ((endIndex < period - 1)%Z -> calculateEMA bars period endIndex = Normal 0) /\
  (endIndex = (period - 1)%Z ->
   calculateEMA bars period endIndex = calculateSMA bars period endIndex) /\
  ((0 < period)%Z -> (period - 1 < endIndex < Z.of_nat (length bars))%Z ->
   exists previousEMA b,
     calculateEMA bars period (endIndex - 1) = Normal previousEMA /\
     bars !! Z.to_nat endIndex = Some b /\
     calculateEMA bars period endIndex =
       Normal ((bar_c b - previousEMA) * (2 / (inject_Z period + 1)) + previousEMA)).
Proof.
  split; [apply calculateEMA_sentinel|]. split; [apply calculateEMA_seed|].
  intros Hpos Hrange.
  destruct (calculateEMA_returns bars period
              (Z.to_nat (endIndex - 1 - (period - 1))) Hpos (endIndex - 1)%Z)
    as [prev Hprev]; [lia|lia|].
  destruct (bar_at_in_range bars endIndex) as [b Hbar]; [lia|].
  exists prev, b. split; [exact Hprev|]. split.
  - unfold bar_at in Hbar. destruct (Z.ltb_spec endIndex 0); [lia|].
    destruct (bars !! Z.to_nat endIndex); congruence.
  - rewrite calculateEMA_step by lia. now rewrite Hprev, Hbar.
Qed.

Lemma calculateEMA_recurrence_witness :
  calculateEMA bars5 2 0 = Normal 0 /\
  exists r, calculateEMA bars5 2 3 = Normal r /\ r == 13 # 6.
Proof.
  destruct (calculateEMA_recurrence bars5 2 0) as [H0 _].
  destruct (calculateEMA_recurrence bars5 2 3) as (_ & _ & Hstep).
  split; [apply H0; lia|].
  destruct Hstep as (prev & b & Hprev & Hb & Hr); [lia|simpl; lia|].
  eexists. split; [exact Hr|].
  vm_compute in Hprev. injection Hprev as <-. injection Hb as <-. reflexivity.
Defined.



(** ** [getHighest] and [getLowest] *)

Lemma Qmin_cases (x y : Q) : Qmin x y = x \/ Qmin x y = y.
Proof.
  unfold Qmin, GenericMinMax.gmin. destruct (x ?= y); auto.
Qed.

Lemma bar_at_lookup (bars : list Bar) (i : Z) (b : Bar) :
  bar_at bars i = Normal b <-> (0 <= i)%Z /\ bars !! Z.to_nat i = Some b.
Proof.
  unfold bar_at. destruct (Z.ltb_spec i 0).
  - split; [discriminate|]. intros [H' _]. lia.
  - destruct (bars !! Z.to_nat i); split; try intros [_ ?]; try congruence.
    intros [= <-]. now split.
Qed.

Lemma bar_at_out_of_range (bars : list Bar) (i : Z) :
  ~ (0 <= i < Z.of_nat (length bars))%Z -> bar_at bars i = Throw TypeError.
Proof.
  intros H. unfold bar_at. destruct (Z.ltb_spec i 0); [reflexivity|].
  rewrite lookup_ge_None_2; [reflexivity|lia].
Qed.

Lemma getHighest_loop (bars : list Bar) (idxs : list Z) (highest : Q) :
  (forall i, i ∈ idxs -> (0 <= i < Z.of_nat (length bars))%Z) ->
  exists r,
    foldM (getHighest_body bars) idxs highest = Normal r /\
    highest <= r /\
    (forall i b, i ∈ idxs -> bars !! Z.to_nat i = Some b -> bar_h b <= r) /\
    (r = highest \/
     exists i b, i ∈ idxs /\ bars !! Z.to_nat i = Some b /\ r = bar_h b).
Proof.
  revert highest. induction idxs as [|i idxs IH]; intros highest Hin.
  - exists highest. split; [reflexivity|]. split; [apply Qle_refl|].
    split; [|now left]. intros i b Hi. inversion Hi.
  - destruct (bar_at_in_range bars i) as [bi Hbi]; [apply Hin; left|].
    pose proof (proj1 (bar_at_lookup bars i bi) Hbi) as [_ Hlook].
    destruct (IH (Qmax highest (bar_h bi))) as (r & Hrun & Hge & Hall & Hex).
    { intros j Hj. apply Hin. now right. }
    exists r. split; [|split; [|split]].
    + cbn [foldM].
      replace (getHighest_body bars i highest)
        with (Normal (Qmax highest (bar_h bi)))
        by (unfold getHighest_body; now rewrite Hbi).
      exact Hrun.
    + apply Qle_trans with (Qmax highest (bar_h bi)); [apply Q.le_max_l|exact Hge].
    + intros j b Hj Hb. apply elem_of_cons in Hj as [->|Hj].
      * assert (b = bi) as -> by congruence.
        apply Qle_trans with (Qmax highest (bar_h bi)); [apply Q.le_max_r|exact Hge].
      * now apply (Hall j).
    + destruct Hex as [->|(j & b & Hj & Hb & ->)].
      * destruct (Qmax_cases highest (bar_h bi)) as [-> | ->]; [now left|].
        right. exists i, bi. split; [left|]. now split.
      * right. exists j, b. split; [now right|]. now split.
Qed.

Lemma getLowest_loop (bars : list Bar) (idxs : list Z) (lowest : Q) :
  (forall i, i ∈ idxs -> (0 <= i < Z.of_nat (length bars))%Z) ->
  exists r,
    foldM (getLowest_body bars) idxs lowest = Normal r /\
    r <= lowest /\
    (forall i b, i ∈ idxs -> bars !! Z.to_nat i = Some b -> r <= bar_l b) /\
    (r = lowest \/
     exists i b, i ∈ idxs /\ bars !! Z.to_nat i = Some b /\ r = bar_l b).
Proof.
  revert lowest. induction idxs as [|i idxs IH]; intros lowest Hin.
  - exists lowest. split; [reflexivity|]. split; [apply Qle_refl|].
    split; [|now left]. intros i b Hi. inversion Hi.
  - destruct (bar_at_in_range bars i) as [bi Hbi]; [apply Hin; left|].
    pose proof (proj1 (bar_at_lookup bars i bi) Hbi) as [_ Hlook].
    destruct (IH (Qmin lowest (bar_l bi))) as (r & Hrun & Hge & Hall & Hex).
    { intros j Hj. apply Hin. now right. }
    exists r. split; [|split; [|split]].
    + cbn [foldM].
      replace (getLowest_body bars i lowest)
        with (Normal (Qmin lowest (bar_l bi)))
        by (unfold getLowest_body; now rewrite Hbi).
      exact Hrun.
    + apply Qle_trans with (Qmin lowest (bar_l bi)); [exact Hge|apply Q.le_min_l].
    + intros j b Hj Hb. apply elem_of_cons in Hj as [->|Hj].
      * assert (b = bi) as -> by congruence.
        apply Qle_trans with (Qmin lowest (bar_l bi)); [exact Hge|apply Q.le_min_r].
      * now apply (Hall j).
    + destruct Hex as [->|(j & b & Hj & Hb & ->)].
      * destruct (Qmin_cases lowest (bar_l bi)) as [-> | ->]; [now left|].
        right. exists i, bi. split; [left|]. now split.
      * right. exists j, b. split; [now right|]. now split.
Qed.

(** X4.  [getHighest] throws a [TypeError] when [endIndex] is not the index
    of a bar.  At the index of a bar it returns the largest high among the
    bar at [endIndex] and the bars of the window
    [max(0, endIndex - period + 1) .. endIndex]: the window is cut at the
    first bar instead of answering a sentinel, and a period <= 0 gives the
    high of the bar at [endIndex] itself. *)
Theorem getHighest_spec (bars : list Bar) (period endIndex : Z) :
  (~ (0 <= endIndex < Z.of_nat (length bars))%Z ->
   getHighest bars period endIndex = Throw TypeError) /\
  ((0 <= endIndex < Z.of_nat (length bars))%Z ->
   exists r,
     getHighest bars period endIndex = Normal r /\
     (forall i b, (0 <= i)%Z -> (endIndex - period + 1 <= i <= endIndex)%Z ->
                  bars !! Z.to_nat i = Some b -> bar_h b <= r) /\
     (forall b, bars !! Z.to_nat endIndex = Some b -> bar_h b <= r) /\
     (exists i b, (0 <= i <= endIndex)%Z /\
                  ((endIndex - period + 1 <= i)%Z \/ i = endIndex) /\
                  bars !! Z.to_nat i = Some b /\ r = bar_h b) /\
     ((period <= 0)%Z -> forall b, bars !! Z.to_nat endIndex = Some b -> r = bar_h b)).
Proof.
  split.
  - intros Hout. unfold getHighest. now rewrite bar_at_out_of_range.
  - intros Hrange. unfold getHighest.
    destruct (bar_at_in_range bars endIndex Hrange) as [be Hbe].
    pose proof (proj1 (bar_at_lookup bars endIndex be) Hbe) as [_ Hlook].
    rewrite Hbe. cbn [mbind completion_bind]. unfold for_range.
    set (idxs := seqZ (Z.max 0 (endIndex - period + 1))
                      (endIndex - Z.max 0 (endIndex - period + 1) + 1)).
    assert (Hidx : forall i, i ∈ idxs <->
                   (Z.max 0 (endIndex - period + 1) <= i <= endIndex)%Z).
    { intros i. unfold idxs. rewrite elem_of_seqZ. lia. }
    destruct (getHighest_loop bars idxs (bar_h be)) as (r & -> & Hge & Hall & Hex).
    { intros i Hi. apply Hidx in Hi. lia. }
    exists r. split; [reflexivity|]. split; [|split; [|split]].
    + intros i b Hi0 Hi Hb. apply (Hall i b); [|exact Hb]. apply Hidx. lia.
    + intros b Hb. assert (b = be) as -> by congruence. exact Hge.
    + destruct Hex as [->|(i & b & Hi & Hb & ->)].
      * exists endIndex, be. repeat split; try lia; assumption.
      * apply Hidx in Hi. exists i, b. repeat split; try lia; assumption.
    + intros Hper b Hb. assert (b = be) as -> by congruence.
      destruct Hex as [->|(i & b & Hi & _)]; [reflexivity|].
      apply Hidx in Hi. lia.
Qed.

Lemma getHighest_spec_witness :
  getHighest barsOHLC 2 7 = Throw TypeError /\
  getHighest barsOHLC 2 3 = Normal 14 /\
  getHighest barsOHLC 10 3 = Normal 15.
Proof.
  destruct (getHighest_spec barsOHLC 2 7) as [Hout _].
  split; [apply Hout; simpl; lia|]. split; reflexivity.
Defined.

(** X5.  [getLowest] is the mirror image of [getHighest]: a [TypeError]
    outside the bars; at the index of a bar, the smallest low among the bar
    at [endIndex] and the bars of the window cut at the first bar. *)
Theorem getLowest_spec (bars : list Bar) (period endIndex : Z) :
  (~ (0 <= endIndex < Z.of_nat (length bars))%Z ->
   getLowest bars period endIndex = Throw TypeError) /\
  ((0 <= endIndex < Z.of_nat (length bars))%Z ->
   exists r,
     getLowest bars period endIndex = Normal r /\
     (forall i b, (0 <= i)%Z -> (endIndex - period + 1 <= i <= endIndex)%Z ->
                  bars !! Z.to_nat i = Some b -> r <= bar_l b) /\
     (forall b, bars !! Z.to_nat endIndex = Some b -> r <= bar_l b) /\
     (exists i b, (0 <= i <= endIndex)%Z /\
                  ((endIndex - period + 1 <= i)%Z \/ i = endIndex) /\
                  bars !! Z.to_nat i = Some b /\ r = bar_l b) /\
     ((period <= 0)%Z -> forall b, bars !! Z.to_nat endIndex = Some b -> r = bar_l b)).
Proof.
  split.
  - intros Hout. unfold getLowest. now rewrite bar_at_out_of_range.
  - intros Hrange. unfold getLowest.
    destruct (bar_at_in_range bars endIndex Hrange) as [be Hbe].
    pose proof (proj1 (bar_at_lookup bars endIndex be) Hbe) as [_ Hlook].
    rewrite Hbe. cbn [mbind completion_bind]. unfold for_range.
    set (idxs := seqZ (Z.max 0 (endIndex - period + 1))
                      (endIndex - Z.max 0 (endIndex - period + 1) + 1)).
    assert (Hidx : forall i, i ∈ idxs <->
                   (Z.max 0 (endIndex - period + 1) <= i <= endIndex)%Z).
    { intros i. unfold idxs. rewrite elem_of_seqZ. lia. }
    destruct (getLowest_loop bars idxs (bar_l be)) as (r & -> & Hge & Hall & Hex).
    { intros i Hi. apply Hidx in Hi. lia. }
    exists r. split; [reflexivity|]. split; [|split; [|split]].
    + intros i b Hi0 Hi Hb. apply (Hall i b); [|exact Hb]. apply Hidx. lia.
    + intros b Hb. assert (b = be) as -> by congruence. exact Hge.
    + destruct Hex as [->|(i & b & Hi & Hb & ->)].
      * exists endIndex, be. repeat split; try lia; assumption.
      * apply Hidx in Hi. exists i, b. repeat split; try lia; assumption.
    + intros Hper b Hb. assert (b = be) as -> by congruence.
      destruct Hex as [->|(i & b & Hi & _)]; [reflexivity|].
      apply Hidx in Hi. lia.
Qed.

Lemma getLowest_spec_witness :
  getLowest barsOHLC 2 (-1) = Throw TypeError /\
  getLowest barsOHLC 2 3 = Normal 8 /\
  getLowest barsOHLC 0 3 = Normal 9.
Proof.
  destruct (getLowest_spec barsOHLC 2 (-1)) as [Hout _].
  split; [apply Hout; simpl; lia|]. split; reflexivity.
Defined.

(** ** The range of [calculateRSI] *)

Lemma gain_nonneg (c : Q) : 0 <= gain c.
Proof.
  unfold gain. destruct (Qlt_bool 0 c) eqn:E; [|apply Qle_refl].
  apply Qlt_bool_iff in E. now apply Qlt_le_weak.
Qed.

Lemma loss_nonneg (c : Q) : 0 <= loss c.
Proof.
  unfold loss. destruct (Qlt_bool 0 c); [apply Qle_refl|apply Qabs_nonneg].
Qed.

Lemma Qsum_nonneg (xs : list Q) : Forall (fun x => 0 <= x) xs -> 0 <= Qsum xs.
Proof.
  induction 1 as [|x xs Hx _ IH].
  - rewrite Qsum_nil. apply Qle_refl.
  - rewrite Qsum_cons. lra.
Qed.

Lemma Qsum_zero (xs : list Q) : Forall (fun x => x == 0) xs -> Qsum xs == 0.
Proof.
  induction 1 as [|x xs Hx _ IH].
  - apply Qsum_nil.
  - rewrite Qsum_cons, Hx, IH. ring.
Qed.

Lemma avgGain_nonneg (bars : list Bar) (period endIndex : Z) :
  (0 < period)%Z -> 0 <= avgGain bars period endIndex.
Proof.
  intros Hpos. unfold avgGain. apply Qle_shift_div_l.
  - change 0 with (inject_Z 0). now rewrite <- Zlt_Qlt.
  - rewrite Qmult_0_l. apply Qsum_nonneg, Forall_fmap, Forall_forall.
    intros c _. apply gain_nonneg.
Qed.

Lemma avgLoss_nonneg (bars : list Bar) (period endIndex : Z) :
  (0 < period)%Z -> 0 <= avgLoss bars period endIndex.
Proof.
  intros Hpos. unfold avgLoss. apply Qle_shift_div_l.
  - change 0 with (inject_Z 0). now rewrite <- Zlt_Qlt.
  - rewrite Qmult_0_l. apply Qsum_nonneg, Forall_fmap, Forall_forall.
    intros c _. apply loss_nonneg.
Qed.

Lemma RSI_spec_range (bars : list Bar) (period endIndex : Z) :
  (0 < period)%Z -> 0 <= RSI_spec bars period endIndex <= 100.
Proof.
  intros Hpos. unfold RSI_spec.
  pose proof (avgGain_nonneg bars period endIndex Hpos) as Hg.
  pose proof (avgLoss_nonneg bars period endIndex Hpos) as Hl.
  destruct (Qeq_bool (avgLoss bars period endIndex) 0) eqn:E; [split; lra|].
  apply Qeq_bool_false in E.
  assert (Hlpos : 0 < avgLoss bars period endIndex).
  { destruct (Qlt_le_dec 0 (avgLoss bars period endIndex)) as [H|H]; [exact H|].
    exfalso. apply E. now apply Qle_antisym. }
  set (rs := avgGain bars period endIndex / avgLoss bars period endIndex).
  assert (Hrs : 0 <= rs).
  { unfold rs. apply Qle_shift_div_l; [exact Hlpos|]. now rewrite Qmult_0_l. }
  assert (H100 : 0 <= 100 / (1 + rs) <= 100).
  { split.
    - apply Qle_shift_div_l; lra.
    - apply Qle_shift_div_r; lra. }
  split; lra.
Qed.

(** A value below the warm-up or at the index of a bar. *)
Lemma calculateRSI_value (bars : list Bar) (period endIndex : Z) :
  (endIndex < Z.of_nat (length bars))%Z ->
  exists r, calculateRSI bars period endIndex = Normal r /\
            ((endIndex < period)%Z -> r = 50) /\
            ((period <= endIndex)%Z -> r == RSI_spec bars period endIndex) /\
            ((period <= endIndex)%Z -> avgLoss bars period endIndex == 0 -> r = 100).
Proof.
  intros Hlen. unfold calculateRSI.
  destruct (Z.ltb_spec endIndex period) as [Hlt|Hge].
  - exists 50. split; [reflexivity|]. split; [reflexivity|]. split; lia.
  - rewrite for_range_window.
    destruct (calculateRSI_loop bars (window period endIndex) 0 0)
      as (gains & losses & -> & Hg & Hl).
    { intros i Hi. unfold window in Hi. apply elem_of_seqZ in Hi. lia. }
    cbn [mbind completion_bind].
    fold (changes bars period endIndex) in Hg, Hl.
    assert (HavgG : gains / inject_Z period == avgGain bars period endIndex).
    { unfold avgGain. rewrite Hg. now rewrite Qplus_0_l. }
    assert (HavgL : losses / inject_Z period == avgLoss bars period endIndex).
    { unfold avgLoss. rewrite Hl. now rewrite Qplus_0_l. }
    assert (Ecase : Qeq_bool (avgLoss bars period endIndex) 0
                    = Qeq_bool (losses / inject_Z period) 0).
    { apply Qeqb_comp; [symmetry; exact HavgL|reflexivity]. }
    unfold RSI_spec. rewrite Ecase.
    destruct (Qeq_bool (losses / inject_Z period) 0) eqn:E.
    + exists 100. split; [reflexivity|]. split; [lia|]. split; reflexivity.
    + eexists. split; [reflexivity|]. split; [lia|]. split.
      * intros _. now rewrite HavgL, HavgG.
      * intros _ H0. apply Qeq_bool_false in E. rewrite HavgL in E. contradiction.
Qed.

Lemma calculateRSI_in_0_100 (bars : list Bar) (period endIndex : Z) :
  (0 < period)%Z -> (endIndex < Z.of_nat (length bars))%Z ->
  exists r, calculateRSI bars period endIndex = Normal r /\ 0 <= r <= 100.
Proof.
  intros Hpos Hlen.
  destruct (calculateRSI_value bars period endIndex Hlen)
    as (r & Hr & H50 & Hspec & _).
  exists r. split; [exact Hr|].
  destruct (Z_lt_le_dec endIndex period) as [Hlt|Hge].
  - rewrite (H50 Hlt). split; lra.
  - rewrite (Hspec Hge). now apply RSI_spec_range.
Qed.

Lemma Qsum_pos (xs : list Q) :
  Forall (fun x => 0 <= x) xs -> Exists (fun x => 0 < x) xs -> 0 < Qsum xs.
Proof.
  induction 1 as [|x xs Hx Hall IH]; intros Hex.
  - inversion Hex.
  - rewrite Qsum_cons. pose proof (Qsum_nonneg xs Hall) as Hs.
    apply Exists_cons in Hex as [Hpos|Hex]; [lra|].
    specialize (IH Hex). lra.
Qed.

(** X6.  For a positive period and any index below the number of bars,
    [calculateRSI] returns a value between 0 and 100.  Past the warm-up it
    is exactly 100 when no close of the window is below the one before it (a
    flat window included), and 0 when no close is above the one before it
    and at least one is below. *)
Theorem calculateRSI_range (bars : list Bar) (period endIndex : Z) :
  (0 < period)%Z -> (endIndex < Z.of_nat (length bars))%Z ->
  exists r,
    calculateRSI bars period endIndex = Normal r /\
    0 <= r <= 100 /\
    ((period <= endIndex)%Z ->
     Forall (fun c => 0 <= c) (changes bars period endIndex) -> r = 100) /\
    ((period <= endIndex)%Z ->
     Forall (fun c => c <= 0) (changes bars period endIndex) ->
     Exists (fun c => c < 0) (changes bars period endIndex) -> r == 0).
Proof.
  intros Hpos Hlen.
  destruct (calculateRSI_in_0_100 bars period endIndex Hpos Hlen) as (r & Hr & Hrange).
  destruct (calculateRSI_value bars period endIndex Hlen)
    as (r' & Hr' & _ & Hspec & H100).
  rewrite Hr in Hr'. injection Hr' as <-.
  assert (Hp : 0 < inject_Z period)
    by (change 0 with (inject_Z 0); now rewrite <- Zlt_Qlt).
  exists r. split; [exact Hr|]. split; [exact Hrange|]. split.
  - intros Hge Hup. apply (H100 Hge). unfold avgLoss.
    rewrite Qsum_zero; [field; lra|].
    apply Forall_fmap. eapply Forall_impl; [exact Hup|].
    intros c Hc. cbn. unfold loss. destruct (Qlt_bool 0 c) eqn:E; [reflexivity|].
    apply Qlt_bool_false in E.
    assert (c == 0) as -> by (now apply Qle_antisym). reflexivity.
  - intros Hge Hdown Hsome. rewrite (Hspec Hge). unfold RSI_spec.
    assert (Hg0 : avgGain bars period endIndex == 0).
    { unfold avgGain. rewrite Qsum_zero; [field; lra|].
      apply Forall_fmap. eapply Forall_impl; [exact Hdown|].
      intros c Hc. cbn. unfold gain. destruct (Qlt_bool 0 c) eqn:E; [|reflexivity].
      apply Qlt_bool_iff in E. exfalso. exact (Qlt_not_le _ _ E Hc). }
    assert (Hlpos : 0 < avgLoss bars period endIndex).
    { unfold avgLoss. apply Qlt_shift_div_l; [exact Hp|]. rewrite Qmult_0_l.
      apply Qsum_pos.
      - apply Forall_fmap, Forall_forall. intros c _. apply loss_nonneg.
      - apply Exists_fmap. eapply Exists_impl; [exact Hsome|].
        intros c Hc. cbn in Hc |- *. unfold loss.
        destruct (Qlt_bool 0 c) eqn:E.
        + apply Qlt_bool_iff in E. exfalso.
          exact (Qlt_irrefl _ (Qlt_trans _ _ _ E Hc)).
        + rewrite Qabs_neg by (now apply Qlt_le_weak). lra. }
    destruct (Qeq_bool (avgLoss bars period endIndex) 0) eqn:E.
    + apply Qeq_bool_iff in E. rewrite E in Hlpos. exfalso. exact (Qlt_irrefl _ Hlpos).
    + rewrite Hg0. field. lra.
Qed.

Lemma calculateRSI_range_witness :
  exists r, calculateRSI bars5 3 4 = Normal r /\ 0 <= r <= 100.
Proof.
  destruct (calculateRSI_range bars5 3 4) as (r & Hr & Hrange & _);
    [lia|simpl; lia|].
  exists r. now split.
Defined.

(** * The RSI strategy (strategies/rsi.ts) *)

Lemma RSI_analyze_cases (this : RSIParameters) (bars : list Bar) (index : Z) :
  (0 <= index < Z.of_nat (length bars))%Z ->
  exists bar signal,
    bars !! Z.to_nat index = Some bar /\
    RSI_analyze this bars index = Normal signal /\
    sig_timestamp signal = bar_t bar /\
    (((index < rsi_period this + 1)%Z /\
      sig_action signal = hold /\ sig_confidence signal = 0)
     \/
     ((rsi_period this + 1 <= index)%Z /\
      exists currentRSI previousRSI,
        calculateRSI bars (rsi_period this) index = Normal currentRSI /\
        calculateRSI bars (rsi_period this) (index - 1) = Normal previousRSI /\
        currentRSI == RSI_spec bars (rsi_period this) index /\
        previousRSI == RSI_spec bars (rsi_period this) (index - 1) /\
        ((crossesUp this previousRSI currentRSI /\
          sig_action signal = buy /\
          sig_confidence signal
            = (oversoldLevel this - previousRSI) / oversoldLevel this)
         \/
         (~ crossesUp this previousRSI currentRSI /\
          crossesDown this previousRSI currentRSI /\
          sig_action signal = sell /\
          sig_confidence signal
            = (previousRSI - overboughtLevel this) / (100 - overboughtLevel this))
         \/
         (~ crossesUp this previousRSI currentRSI /\
          ~ crossesDown this previousRSI currentRSI /\
          currentRSI < oversoldLevel this /\
          sig_action signal = buy /\
          sig_confidence signal
            = (oversoldLevel this - currentRSI) / oversoldLevel this)
         \/
         (~ crossesUp this previousRSI currentRSI /\
          ~ crossesDown this previousRSI currentRSI /\
          oversoldLevel this <= currentRSI /\
          overboughtLevel this < currentRSI /\
          sig_action signal = sell /\
          sig_confidence signal
            = (currentRSI - overboughtLevel this) / (100 - overboughtLevel this))
         \/
         (~ crossesUp this previousRSI currentRSI /\
          ~ crossesDown this previousRSI currentRSI /\
          oversoldLevel this <= currentRSI /\
          currentRSI <= overboughtLevel this /\
          sig_action signal = hold /\ sig_confidence signal = 0)))).
Proof.
  intros Hrange.
  destruct (bar_at_in_range bars index Hrange) as [bar Hbar].
  pose proof (proj1 (bar_at_lookup bars index bar) Hbar) as [_ Hlookup].
  exists bar. unfold RSI_analyze.
  destruct (Z.ltb_spec index (rsi_period this + 1)) as [Hwarm|Hready].
  - rewrite Hbar. eexists. split; [exact Hlookup|]. split; [reflexivity|].
    split; [reflexivity|]. left. now repeat split.
  - destruct (calculateRSI_value bars (rsi_period this) index)
      as (cur & Hcur & _ & Hcurspec & _); [lia|].
    destruct (calculateRSI_value bars (rsi_period this) (index - 1))
      as (prev & Hprev & _ & Hprevspec & _); [lia|].
    rewrite Hcur, Hprev, Hbar. cbn [mbind completion_bind].
    unfold crossesUp, crossesDown.
    destruct (Qle_bool prev (oversoldLevel this)
              && Qlt_bool (oversoldLevel this) cur) eqn:Eup.
    { apply andb_true_iff in Eup as [E1 E2].
      apply Qle_bool_iff in E1. apply Qlt_bool_iff in E2.
      eexists. split; [exact Hlookup|]. split; [reflexivity|].
      split; [reflexivity|]. right. split; [exact Hready|].
      exists cur, prev. split; [reflexivity|]. split; [reflexivity|].
      split; [apply Hcurspec; lia|]. split; [apply Hprevspec; lia|].
      left. now repeat split. }
    assert (Hnup : ~ (prev <= oversoldLevel this /\ oversoldLevel this < cur)).
    { intros [H1 H2]. apply Qle_bool_iff in H1. apply Qlt_bool_iff in H2.
      rewrite H1, H2 in Eup. discriminate. }
    destruct (Qle_bool (overboughtLevel this) prev
              && Qlt_bool cur (overboughtLevel this)) eqn:Edown.
    { apply andb_true_iff in Edown as [E1 E2].
      apply Qle_bool_iff in E1. apply Qlt_bool_iff in E2.
      eexists. split; [exact Hlookup|]. split; [reflexivity|].
      split; [reflexivity|]. right. split; [exact Hready|].
      exists cur, prev. split; [reflexivity|]. split; [reflexivity|].
      split; [apply Hcurspec; lia|]. split; [apply Hprevspec; lia|].
      right. left. now repeat split. }
    assert (Hndown : ~ (overboughtLevel this <= prev /\ cur < overboughtLevel this)).
    { intros [H1 H2]. apply Qle_bool_iff in H1. apply Qlt_bool_iff in H2.
      rewrite H1, H2 in Edown. discriminate. }
    destruct (Qlt_bool cur (oversoldLevel this)) eqn:Elow.
    { apply Qlt_bool_iff in Elow.
      eexists. split; [exact Hlookup|]. split; [reflexivity|].
      split; [reflexivity|]. right. split; [exact Hready|].
      exists cur, prev. split; [reflexivity|]. split; [reflexivity|].
      split; [apply Hcurspec; lia|]. split; [apply Hprevspec; lia|].
      right. right. left. now repeat split. }
    apply Qlt_bool_false in Elow.
    destruct (Qlt_bool (overboughtLevel this) cur) eqn:Ehigh.
    { apply Qlt_bool_iff in Ehigh.
      eexists. split; [exact Hlookup|]. split; [reflexivity|].
      split; [reflexivity|]. right. split; [exact Hready|].
      exists cur, prev. split; [reflexivity|]. split; [reflexivity|].
      split; [apply Hcurspec; lia|]. split; [apply Hprevspec; lia|].
      right. right. right. left. now repeat split. }
    apply Qlt_bool_false in Ehigh.
    eexists. split; [exact Hlookup|]. split; [reflexivity|].
    split; [reflexivity|]. right. split; [exact Hready|].
    exists cur, prev. split; [reflexivity|]. split; [reflexivity|].
    split; [apply Hcurspec; lia|]. split; [apply Hprevspec; lia|].
    right. right. right. right. now repeat split.
Qed.



Lemma Qdiv_in_0_1 (a b : Q) : 0 <= a -> a <= b -> 0 < b -> 0 <= a / b <= 1.
Proof.
  intros Ha Hab Hb. split.
  - apply Qle_shift_div_l; [exact Hb|]. now rewrite Qmult_0_l.
  - apply Qle_shift_div_r; [exact Hb|]. now rewrite Qmult_1_l.
Qed.

(** X8.  With a positive period, a positive oversold level and an
    overbought level below 100, the confidence of every signal
    [RSIStrategy.analyze] returns at the index of a bar lies between 0 and
    1. *)
Theorem RSI_analyze_confidence_range (this : RSIParameters) (bars : list Bar)
    (index : Z) :
  (0 < rsi_period this)%Z ->
  0 < oversoldLevel this -> overboughtLevel this < 100 ->
  (0 <= index < Z.of_nat (length bars))%Z ->
  exists signal,
    RSI_analyze this bars index = Normal signal /\
    0 <= sig_confidence signal <= 1.
Proof.
  intros Hper Hos Hob Hrange.
  destruct (RSI_analyze_cases this bars index Hrange)
    as (bar & signal & _ & Hrun & _ & Hcases).
  exists signal. split; [exact Hrun|].
  destruct Hcases
    as [(_ & _ & ->)|(Hready & cur & prev & Hcur & Hprev & _ & _ & Hbranch)].
  { split; [apply Qle_refl|discriminate]. }
  destruct (calculateRSI_in_0_100 bars (rsi_period this) index Hper)
    as (cur' & Hcur' & Hc0 & Hc100); [lia|].
  destruct (calculateRSI_in_0_100 bars (rsi_period this) (index - 1) Hper)
    as (prev' & Hprev' & Hp0 & Hp100); [lia|].
  rewrite Hcur in Hcur'. injection Hcur' as <-.
  rewrite Hprev in Hprev'. injection Hprev' as <-.
  unfold crossesUp, crossesDown in Hbranch.
  destruct Hbranch
    as [([Hup1 Hup2] & _ & ->)
       |[(_ & [Hd1 Hd2] & _ & ->)
        |[(_ & _ & Hlow & _ & ->)
         |[(_ & _ & _ & Hhigh & _ & ->)
          |(_ & _ & _ & _ & _ & ->)]]]].
  - apply Qdiv_in_0_1; lra.
  - apply Qdiv_in_0_1; lra.
  - apply Qdiv_in_0_1; lra.
  - apply Qdiv_in_0_1; lra.
  - split; [apply Qle_refl|discriminate].
Qed.

Lemma RSI_analyze_confidence_range_witness :
  exists signal,
    RSI_analyze rsi2 barsFall 3 = Normal signal /\
    0 <= sig_confidence signal <= 1.
Proof.
  apply RSI_analyze_confidence_range.
  - simpl. lia.
  - reflexivity.
  - reflexivity.
  - simpl. lia.
Defined.

Lemma RSIStrategy_answers (bars : list Bar) :
  strategy_answers RSIStrategy bars.
Proof.
  split.
  - intros init st [= <-]. eexists. reflexivity.
  - intros st i Hi. cbn [analyze RSIStrategy].
    destruct (RSI_analyze_cases st bars (Z.of_nat i)) as (_ & signal & _ & -> & _);
      [lia|].
    eexists. reflexivity.
Qed.

(** X9.  A backtest that drives [RSIStrategy], whatever its parameters and
    the state of the engine, returns a result on every non-empty bar
    sequence: the strategy reads no bar outside the sequence, the warm-up of
    [period + 1] bars covering the bar before the first window. *)
Theorem run_RSIStrategy_returns (Math_sqrt : Q -> Q)
    (this : BacktestEngine RSIParameters) (st : RSIParameters) (bars : list Bar) :
  strategy (config this) = RSIStrategy -> bars <> [] ->
  returns (run Math_sqrt this st bars).
Proof.
  intros Hstrat Hne. apply run_returns; [|exact Hne].
  rewrite Hstrat. apply RSIStrategy_answers.
Qed.

Lemma run_RSIStrategy_returns_witness :
  returns (run isqrt (constructor configRSI) rsi2 barsFall).
Proof.
  apply run_RSIStrategy_returns; [reflexivity|discriminate].
Defined.

Lemma run_SMACrossover_returns_witness :
  returns (run isqrt (constructor configNegative) defaultSMAParameters barsOne).
Proof.
  apply run_SMACrossover_returns; [reflexivity|discriminate].
Defined.

(** * Further properties of the engine (backtest/engine.ts) *)

Section EngineSteps.
Context {S : Type}.
Implicit Types (this : BacktestEngine S) (ls : LoopState S) (bars : list Bar).

(** The three outcomes of an iteration, field by field. *)
Lemma loopBody_cases bars i ls ls' :
  loopBody bars i ls = Normal ls' ->
  exists bar signal,
    bars !! i = Some bar /\
    config (eng ls') = config (eng ls) /\
    ((buys (eng ls) bar signal /\
      capital (eng ls') = capital (eng ls) - trade_value (buyTrade (eng ls) bar None) /\
      position (eng ls') = position (eng ls) + fillQuantity (eng ls) bar /\
      trades (eng ls') = trades (eng ls) ++ [buyTrade (eng ls) bar None])
     \/
     (sells (eng ls) signal /\
      capital (eng ls') = capital (eng ls) + trade_value (sellTrade (eng ls) bar None) /\
      position (eng ls') = 0 /\
      trades (eng ls') = trades (eng ls) ++ [sellTrade (eng ls) bar None])
     \/
     (~ buys (eng ls) bar signal /\ ~ sells (eng ls) signal /\
      capital (eng ls') = capital (eng ls) /\
      position (eng ls') = position (eng ls) /\
      trades (eng ls') = trades (eng ls))).
Proof.
  intros H. apply loopBody_inv in H as (bar & signal & st' & Hbar & _ & ->).
  exists bar, signal. cbn [eng].
  set (p := {| ep_timestamp := bar_t bar; ep_equity := _; ep_drawdown := _ |}).
  split; [exact Hbar|].
  split; [now rewrite (proj1 (executeSignal_frame _ _ _))|].
  destruct (buys_dec (eng ls) bar signal) as [Hb|Hnb].
  - left. split; [exact Hb|].
    rewrite (executeSignal_buys (pushEquity (eng ls) p) bar signal) by exact Hb.
    rewrite (executeBuy_fills (pushEquity (eng ls) p) bar None) by apply Hb.
    repeat split.
  - destruct (sells_dec (eng ls) signal) as [Hs|Hns].
    + right. left. split; [exact Hs|].
      rewrite (executeSignal_sells (pushEquity (eng ls) p) bar signal) by exact Hs.
      rewrite (executeSell_liquidates (pushEquity (eng ls) p) bar None) by apply Hs.
      repeat split.
    + right. right.
      rewrite (executeSignal_noop (pushEquity (eng ls) p) bar signal) by assumption.
      repeat split; assumption.
Qed.

(** The two outcomes of the close-out, field by field. *)
Lemma closeOut_fields this bars this' :
  closeOut this bars = Normal this' ->
  config this' = config this /\ equityCurve this' = equityCurve this /\
  ((0 < position this /\
    exists lastBar, last bars = Some lastBar /\
      capital this' = capital this
                      + trade_value (sellTrade this lastBar (Some "End of backtest")) /\
      position this' = 0 /\
      trades this' = trades this ++ [sellTrade this lastBar (Some "End of backtest")])
   \/ (position this <= 0 /\ this' = this)).
Proof.
  intros H. destruct (closeOut_frame _ _ _ H) as [Hc Hq].
  split; [exact Hc|]. split; [exact Hq|].
  destruct (closeOut_cases _ _ _ H) as [(Hp & lastBar & Hlast & ->)|(Hp & ->)].
  - left. split; [exact Hp|]. exists lastBar. split; [exact Hlast|].
    rewrite executeSell_liquidates by exact Hp. repeat split.
  - right. now split.
Qed.

(** An invariant that knows how many bars have gone by. *)
Lemma loopUpTo_invariant_indexed (P : nat -> LoopState S -> Prop) bars :
  (forall i ls ls', P i ls -> loopBody bars i ls = Normal ls' -> P (Datatypes.S i) ls') ->
  forall n ls ls', P 0%nat ls -> loopUpTo bars n ls = Normal ls' -> P n ls'.
Proof.
  intros Hstep n. induction n as [|n IH]; intros ls ls' HP Hn.
  - now injection Hn as <-.
  - rewrite loopUpTo_S in Hn. apply bind_Normal in Hn as (ls_n & Hn & Hb).
    eapply Hstep; [|exact Hb]. eapply IH; eassumption.
Qed.

End EngineSteps.

(** ** Round trips in the trade log *)



Lemma countWins_total (sellTrades buyTrades : list Trade) :
  ((countWins sellTrades buyTrades).1 + (countWins sellTrades buyTrades).2)%nat
  = Nat.min (length sellTrades) (length buyTrades).
Proof.
  revert buyTrades. induction sellTrades as [|s sells IH]; intros [|b buys];
    try reflexivity.
  cbn [countWins length Nat.min]. specialize (IH buys).
  destruct (countWins sells buys) as [w l].
  destruct (Qlt_bool 0 (trade_value s - trade_value b)); cbn [fst snd] in *; lia.
Qed.

Lemma generateReport_counts {S : Type} (Math_sqrt : Q -> Q) (this : BacktestEngine S) :
  total_trades (generateReport Math_sqrt this) = length (trades this) /\
  winning_trades (generateReport Math_sqrt this)
    = (countWins (filter is_sell (trades this)) (filter is_buy (trades this))).1 /\
  losing_trades (generateReport Math_sqrt this)
    = (countWins (filter is_sell (trades this)) (filter is_buy (trades this))).2 /\
  win_rate (generateReport Math_sqrt this)
    = (let w := (countWins (filter is_sell (trades this))
                           (filter is_buy (trades this))).1 in
       let l := (countWins (filter is_sell (trades this))
                           (filter is_buy (trades this))).2 in
       if (0 <? w + l)%nat
       then (nat_to_Q w / nat_to_Q (w + l)) * 100 else 0).
Proof.
  unfold generateReport.
  destruct (countWins (filter is_sell (trades this)) (filter is_buy (trades this))).
  repeat split.
Qed.

Section TradeLog.
Context {S : Type}.
Implicit Types (this : BacktestEngine S) (ls : LoopState S) (bars : list Bar).







End TradeLog.



(** X11.  Whatever the engine holds, the report counts as wins and losses
    together the pairs it can form, min(number of sells, number of buys),
    and its win rate is winning / (winning + losing) * 100, between 0 and
    100; it is 0 when there is no pair. *)
Theorem generateReport_win_rate {S : Type} (Math_sqrt : Q -> Q)
    (this : BacktestEngine S) :
  let res := generateReport Math_sqrt this in
  (winning_trades res + losing_trades res)%nat
    = Nat.min (length (filter is_sell (trades this)))
              (length (filter is_buy (trades this))) /\
  0 <= win_rate res <= 100 /\
  ((winning_trades res + losing_trades res)%nat = 0%nat -> win_rate res = 0) /\
  ((0 < winning_trades res + losing_trades res)%nat ->
   win_rate res
   = nat_to_Q (winning_trades res)
     / nat_to_Q (winning_trades res + losing_trades res) * 100).
Proof.
  cbn zeta.
  destruct (generateReport_counts Math_sqrt this) as (_ & Hw & Hl & Hrate).
  rewrite Hw, Hl, Hrate, countWins_total. cbn zeta.
  rewrite countWins_total.
  set (w := (countWins (filter is_sell (trades this))
                       (filter is_buy (trades this))).1).
  set (n := Nat.min _ _).
  assert (Hwn : (w <= n)%nat).
  { unfold n. rewrite <- countWins_total. fold w. lia. }
  split; [reflexivity|].
  destruct (Nat.ltb_spec 0 n) as [Hpos|Hzero].
  - split; [|split; [lia|reflexivity]].
    assert (Hn : 0 < nat_to_Q n).
    { unfold nat_to_Q. change 0 with (inject_Z 0). rewrite <- Zlt_Qlt. lia. }
    assert (H0 : 0 <= nat_to_Q w).
    { unfold nat_to_Q. change 0 with (inject_Z 0). rewrite <- Zle_Qle. lia. }
    assert (H1 : nat_to_Q w <= nat_to_Q n).
    { unfold nat_to_Q. rewrite <- Zle_Qle. lia. }
    destruct (Qdiv_in_0_1 _ _ H0 H1 Hn). split; lra.
  - split; [split; [apply Qle_refl|discriminate]|].
    split; [reflexivity|lia].
Qed.

(** ** Cash and the trade log *)


Lemma generateReport_returns_fields {S : Type} (Math_sqrt : Q -> Q)
    (this : BacktestEngine S) :
  initial_capital (generateReport Math_sqrt this) = initialCapital (config this) /\
  total_return (generateReport Math_sqrt this)
    = final_capital (generateReport Math_sqrt this) - initialCapital (config this) /\
  total_return_pct (generateReport Math_sqrt this)
    = total_return (generateReport Math_sqrt this) / initialCapital (config this) * 100.
Proof.
  unfold generateReport. destruct (countWins _ _). repeat split.
Qed.

Section Cash.
Context {S : Type}.
Implicit Types (this : BacktestEngine S) (ls : LoopState S) (bars : list Bar).

(** The state a run of a fresh engine ends in. *)
Lemma run_final_state Math_sqrt (cfg : BacktestConfig S) st bars res this' st' :
  run Math_sqrt (constructor cfg) st bars = Normal (res, this', st') ->
  exists entry ls,
    loopEntry (constructor cfg) st = Normal entry /\
    eng entry = constructor cfg /\
    loopUpTo bars (length bars) entry = Normal ls /\
    closeOut (eng ls) bars = Normal this' /\
    res = generateReport Math_sqrt this' /\
    config (eng ls) = cfg /\ config this' = cfg /\
    position this' == 0 /\
    final_capital res == capital this'.
Proof.
  intros Hrun.
  destruct (run_inv _ _ _ _ _ _ _ Hrun)
    as (_ & entry & ls & Hentry & Hloop & Hclose & Hres & _).
  destruct (loopEntry_inv _ _ _ Hentry) as (Heng & _ & _).
  pose proof (loopUpTo_config _ _ _ _ Hloop) as Hcfg.
  rewrite Heng in Hcfg. cbn [constructor config] in Hcfg.
  assert (Hpos : 0 <= position (eng ls)).
  { apply (loopUpTo_invariant (fun l => 0 <= position (eng l)) bars
             (fun i l l' => loopBody_position_nonneg bars i l l')
             (length bars) entry); [|exact Hloop].
    rewrite Heng. apply Qle_refl. }
  assert (Hzero : position this' == 0).
  { destruct (closeOut_fields _ _ _ Hclose)
      as (_ & _ & [(_ & lastBar & _ & _ & -> & _)|(Hflat & ->)]);
      [reflexivity|now apply Qle_antisym]. }
  exists entry, ls. repeat (split; [assumption|]).
  split; [destruct (closeOut_fields _ _ _ Hclose) as (-> & _); exact Hcfg|].
  split; [exact Hzero|].
  subst res. rewrite (proj2 (proj2 (proj2 (generateReport_fields Math_sqrt this')))).
  rewrite Hzero. ring.
Qed.


End Cash.



(** ** Timestamps *)

(** X13.  The equity curve of a run of a fresh engine carries the
    timestamps of the bars, in order, and its first point records the
    initial capital. *)
Theorem equity_curve_timestamps {S : Type} (Math_sqrt : Q -> Q)
    (cfg : BacktestConfig S) (st : S) (bars : list Bar)
    (res : BacktestResult) (this' : BacktestEngine S) (st' : S) :
  run Math_sqrt (constructor cfg) st bars = Normal (res, this', st') ->
  ep_timestamp <$> equity_curve res = bar_t <$> bars /\
  exists first, equity_curve res !! 0%nat = Some first /\
                ep_equity first == initialCapital cfg.
Proof.
  intros Hrun.
  destruct (run_final_state _ _ _ _ _ _ _ Hrun)
    as (entry & ls & _ & Heng & Hloop & Hclose & Hres & _).
  destruct (closeOut_fields _ _ _ Hclose) as (_ & Hcurve & _).
  destruct (loopUpTo_curve _ _ _ _ Hloop) as [Hlen Hpts].
  rewrite Heng in Hlen, Hpts. cbn [constructor equityCurve length] in Hlen, Hpts.
  subst res. rewrite (proj1 (generateReport_fields Math_sqrt this')), Hcurve.
  split.
  - apply list_eq. intros i. rewrite !list_lookup_fmap.
    destruct (bars !! i) as [bar|] eqn:Hbar.
    + destruct (Hpts i) as (bar' & before & after & Hbar' & _ & _ & Hpt & _).
      { now apply lookup_lt_Some in Hbar. }
      simpl in Hpt. rewrite Hpt. cbn. congruence.
    + rewrite lookup_ge_None_2; [reflexivity|].
      apply lookup_ge_None_1 in Hbar. lia.
  - destruct bars as [|bar0 bars'] eqn:Eb.
    { exfalso. unfold run in Hrun. discriminate. }
    destruct (Hpts 0%nat) as (bar' & before & after & Hbar' & Hbefore & _ & Hpt & _).
    { simpl. lia. }
    simpl in Hpt. eexists. split; [exact Hpt|].
    injection Hbefore as <-. rewrite Heng. cbn. ring.
Qed.

Lemma equity_curve_timestamps_witness :
  exists res this' st',
    run3 = Normal (res, this', st') /\
    ep_timestamp <$> equity_curve res = ["2024-01-02"; "2024-01-03"; "2024-01-04"].
Proof.
  destruct run3 as [[[res this'] st']|e] eqn:E; [|vm_compute in E; discriminate].
  exists res, this', st'. split; [reflexivity|].
  exact (proj1 (equity_curve_timestamps isqrt config3 tt bars3 res this' st' E)).
Defined.

Section TradeTimestamps.
Context {S : Type}.
Implicit Types (this : BacktestEngine S) (ls : LoopState S) (bars : list Bar).

Lemma loop_trades_step bars (cfg : BacktestConfig S) i ls ls' :
  (config (eng ls) = cfg /\
   Forall (trade_of_run cfg bars) (trades (eng ls)) /\
   Forall (fun t => trade_reason t = "Strategy signal") (trades (eng ls)) /\
   (trade_timestamp <$> trades (eng ls)) `sublist_of` (bar_t <$> take i bars)) ->
  loopBody bars i ls = Normal ls' ->
  config (eng ls') = cfg /\
  Forall (trade_of_run cfg bars) (trades (eng ls')) /\
  Forall (fun t => trade_reason t = "Strategy signal") (trades (eng ls')) /\
  (trade_timestamp <$> trades (eng ls'))
    `sublist_of` (bar_t <$> take (Datatypes.S i) bars).
Proof.
  intros (Hcfg & Hok & Hreason & Hsub) H.
  destruct (loopBody_cases bars i ls ls' H) as (bar & signal & Hbar & Hcfg' & Hcases).
  rewrite (take_S_r _ _ _ Hbar), fmap_snoc.
  assert (Hin : bar ∈ bars) by (eapply list_elem_of_lookup_2; exact Hbar).
  split; [congruence|].
  destruct Hcases
    as [(_ & _ & _ & Htr)|[(_ & _ & _ & Htr)|(_ & _ & _ & _ & Htr)]];
    rewrite Htr.
  - split; [|split].
    + apply Forall_app. split; [exact Hok|]. constructor; [|constructor].
      unfold trade_of_run. cbn. rewrite Hcfg. repeat split. eauto.
    + apply Forall_app. split; [exact Hreason|]. now repeat constructor.
    + rewrite fmap_snoc. now apply sublist_app.
  - split; [|split].
    + apply Forall_app. split; [exact Hok|]. constructor; [|constructor].
      unfold trade_of_run. cbn. rewrite Hcfg. repeat split. eauto.
    + apply Forall_app. split; [exact Hreason|]. now repeat constructor.
    + rewrite fmap_snoc. now apply sublist_app.
  - split; [exact Hok|]. split; [exact Hreason|]. now apply sublist_inserts_r.
Qed.

(** The trade log after the loop of a run of a fresh engine, and the trade
    the close-out may add. *)
Lemma run_trades Math_sqrt (cfg : BacktestConfig S) st bars res this' st' :
  run Math_sqrt (constructor cfg) st bars = Normal (res, this', st') ->
  exists loopTrades,
    Forall (trade_of_run cfg bars) loopTrades /\
    Forall (fun t => trade_reason t = "Strategy signal") loopTrades /\
    (trade_timestamp <$> loopTrades) `sublist_of` (bar_t <$> bars) /\
    (res_trades res = loopTrades \/
     exists t lastBar,
       last bars = Some lastBar /\
       res_trades res = loopTrades ++ [t] /\
       trade_of_run cfg bars t /\
       trade_timestamp t = bar_t lastBar /\
       trade_action t = trade_sell /\
       trade_reason t = "End of backtest").
Proof.
  intros Hrun.
  destruct (run_final_state _ _ _ _ _ _ _ Hrun)
    as (entry & ls & _ & Heng & Hloop & Hclose & Hres & _).
  assert (Hinv :
    config (eng ls) = cfg /\
    Forall (trade_of_run cfg bars) (trades (eng ls)) /\
    Forall (fun t => trade_reason t = "Strategy signal") (trades (eng ls)) /\
    (trade_timestamp <$> trades (eng ls))
      `sublist_of` (bar_t <$> take (length bars) bars)).
  { apply (loopUpTo_invariant_indexed
             (fun i l =>
                config (eng l) = cfg /\
                Forall (trade_of_run cfg bars) (trades (eng l)) /\
                Forall (fun t => trade_reason t = "Strategy signal") (trades (eng l)) /\
                (trade_timestamp <$> trades (eng l))
                  `sublist_of` (bar_t <$> take i bars)) bars
             (loop_trades_step bars cfg) (length bars) entry); [|exact Hloop].
    rewrite Heng. cbn. repeat split; constructor. }
  rewrite firstn_all in Hinv. destruct Hinv as (Hcfg & Hok & Hreason & Hsub).
  exists (trades (eng ls)). repeat (split; [assumption|]).
  subst res. rewrite (proj1 (proj2 (generateReport_fields Math_sqrt this'))).
  destruct (closeOut_fields _ _ _ Hclose)
    as (_ & _ & [(_ & lastBar & Hlast & _ & _ & Htr)|(_ & ->)]); [|now left].
  right. exists (sellTrade (eng ls) lastBar (Some "End of backtest")), lastBar.
  split; [exact Hlast|]. split; [exact Htr|]. split; [|repeat split].
  unfold trade_of_run. cbn. rewrite Hcfg. repeat split.
  exists lastBar. split; [|now split].
  rewrite last_lookup in Hlast. eapply list_elem_of_lookup_2. exact Hlast.
Qed.

End TradeTimestamps.

(** X14.  In a run of a fresh engine the trades the loop makes carry the
    reason "Strategy signal" and their timestamps are a subsequence of the
    timestamps of the bars: at most one trade per bar, in the order of the
    bars.  The only other trade the log can hold is a last one, the sell
    with reason "End of backtest", stamped with the last bar, which may
    already carry the timestamp of the loop's last trade. *)
Theorem trade_timestamps_follow_bars {S : Type} (Math_sqrt : Q -> Q)
    (cfg : BacktestConfig S) (st : S) (bars : list Bar)
    (res : BacktestResult) (this' : BacktestEngine S) (st' : S) :
  run Math_sqrt (constructor cfg) st bars = Normal (res, this', st') ->
  exists loopTrades,
    Forall (fun t => trade_reason t = "Strategy signal") loopTrades /\
    (trade_timestamp <$> loopTrades) `sublist_of` (bar_t <$> bars) /\
    (res_trades res = loopTrades \/
     exists t lastBar,
       last bars = Some lastBar /\
       res_trades res = loopTrades ++ [t] /\
       trade_timestamp t = bar_t lastBar /\
       trade_action t = trade_sell /\
       trade_reason t = "End of backtest").
Proof.
  intros Hrun.
  destruct (run_trades _ _ _ _ _ _ _ Hrun) as (loopTrades & _ & Hreason & Hsub & Hend).
  exists loopTrades. split; [exact Hreason|]. split; [exact Hsub|].
  destruct Hend as [Heq|(t & lastBar & Hlast & Heq & _ & Hts & Ha & Hr)];
    [now left|].
  right. exists t, lastBar. repeat split; assumption.
Qed.

Lemma trade_timestamps_follow_bars_witness :
  exists res this' st',
    runDip = Normal (res, this', st') /\
    trade_timestamp <$> res_trades res = ["2024-01-02"; "2024-01-04"].
Proof.
  destruct runDip as [[[res this'] st']|e] eqn:E; [|vm_compute in E; discriminate].
  exists res, this', st'. split; [reflexivity|].
  destruct (trade_timestamps_follow_bars isqrt configDip tt barsDip res this' st' E)
    as (loopTrades & _ & _ & _).
  vm_compute in E. injection E as <- _ _. reflexivity.
Defined.

(** X15.  Every trade of the log a run of a fresh engine returns is for the
    configured symbol, is filled at the close of a bar of the input, the one
    it is stamped with, and has as value its quantity times its price, plus
    the commission for a buy and minus the commission for a sell. *)
Theorem trade_records_consistent {S : Type} (Math_sqrt : Q -> Q)
    (cfg : BacktestConfig S) (st : S) (bars : list Bar)
    (res : BacktestResult) (this' : BacktestEngine S) (st' : S) :
  run Math_sqrt (constructor cfg) st bars = Normal (res, this', st') ->
  Forall (trade_of_run cfg bars) (res_trades res).
Proof.
  intros Hrun.
  destruct (run_trades _ _ _ _ _ _ _ Hrun) as (loopTrades & Hok & _ & _ & Hend).
  destruct Hend as [->|(t & lastBar & _ & -> & Ht & _)]; [exact Hok|].
  apply Forall_app. split; [exact Hok|]. constructor; [exact Ht|constructor].
Qed.

Lemma trade_records_consistent_witness :
  exists res this' st',
    run isqrt (constructor configOverdraw) tt barsOverdraw = Normal (res, this', st') /\
    Forall (trade_of_run configOverdraw barsOverdraw) (res_trades res) /\
    trade_value <$> res_trades res = [1 * 6 + 4; (0 + 1) * 1 - 4].
Proof.
  destruct (run isqrt (constructor configOverdraw) tt barsOverdraw)
    as [[[res this'] st']|e] eqn:E; [|vm_compute in E; discriminate].
  exists res, this', st'. split; [reflexivity|].
  split.
  - exact (trade_records_consistent isqrt configOverdraw tt barsOverdraw
             res this' st' E).
  - vm_compute in E. injection E as <- _ _. reflexivity.
Defined.

(** ** Runs without a trade *)

Section Quiet.
Context {S : Type}.
Implicit Types (this : BacktestEngine S) (ls : LoopState S) (bars : list Bar).

Lemma untouched_step (cfg : BacktestConfig S) (Inv : S -> Prop) bars i ls ls' :
  (forall st0 bar signal st1,
     Inv st0 -> bars !! i = Some bar ->
     analyze (strategy cfg) st0 bars (Z.of_nat i) = Normal (signal, st1) ->
     Inv st1 /\ ~ buys (constructor cfg) bar signal) ->
  untouched cfg Inv ls -> loopBody bars i ls = Normal ls' ->
  untouched cfg Inv ls'.
Proof.
  intros Hquiet (Hcfg & Hcap & Hpos & Htr & Hcurve & Hinv) H.
  apply loopBody_inv in H as (bar & signal & st' & Hbar & Han & ->).
  rewrite Hcfg in Han.
  destruct (Hquiet (strat ls) bar signal st' Hinv Hbar Han) as [Hinv' Hnb].
  unfold untouched. cbn [eng strat].
  set (p := {| ep_timestamp := bar_t bar; ep_equity := _; ep_drawdown := _ |}).
  assert (Hnoop : executeSignal (pushEquity (eng ls) p) bar signal
                  = pushEquity (eng ls) p).
  { apply executeSignal_noop.
    - intros (Ha & Hp0 & Hc & Hq). apply Hnb.
      split; [exact Ha|]. split; [reflexivity|]. split; [exact Hc|].
      unfold fillQuantity in *. cbn [pushEquity capital config constructor] in *.
      now rewrite Hcap, Hcfg in Hq.
    - intros (_ & Hopen & _). cbn [pushEquity position] in Hopen.
      rewrite Hpos in Hopen. exact (Qlt_irrefl _ Hopen). }
  rewrite Hnoop.
  cbn [pushEquity config capital position trades equityCurve].
  repeat (split; [assumption|]). split; [|exact Hinv'].
  apply Forall_app. split; [exact Hcurve|]. constructor; [|constructor].
  unfold p. cbn [ep_equity]. rewrite Hcap, Hpos. ring.
Qed.

Lemma run_untouched Math_sqrt (cfg : BacktestConfig S) (Inv : S -> Prop)
    st bars res this' st' :
  (forall init st0, initialize (strategy cfg) = Some init -> Inv st0 ->
                    forall st1, init st0 = Normal st1 -> Inv st1) ->
  (forall i st0 bar signal st1,
     Inv st0 -> bars !! i = Some bar ->
     analyze (strategy cfg) st0 bars (Z.of_nat i) = Normal (signal, st1) ->
     Inv st1 /\ ~ buys (constructor cfg) bar signal) ->
  Inv st ->
  run Math_sqrt (constructor cfg) st bars = Normal (res, this', st') ->
  res_trades res = [] /\ total_trades res = 0%nat /\
  final_capital res == initialCapital cfg /\
  total_return res == 0 /\
  Forall (fun p => ep_equity p == initialCapital cfg) (equity_curve res).
Proof.
  intros Hinit Hquiet Hst Hrun.
  destruct (run_inv _ _ _ _ _ _ _ Hrun)
    as (_ & entry & ls & Hentry & Hloop & Hclose & Hres & _).
  assert (Hentry' : untouched cfg Inv entry).
  { unfold loopEntry in Hentry. cbn [constructor config] in Hentry.
    apply bind_Normal in Hentry as (st1 & Hst1 & [= <-]).
    unfold untouched. cbn. repeat (split; [reflexivity|]).
    split; [constructor|].
    destruct (initialize (strategy cfg)) as [init|] eqn:E.
    - exact (Hinit init st eq_refl Hst st1 Hst1).
    - now injection Hst1 as <-. }
  assert (Hls : untouched cfg Inv ls).
  { apply (loopUpTo_invariant (untouched cfg Inv) bars) with (n := length bars)
                                                            (ls := entry);
      [|exact Hentry'|exact Hloop].
    intros i l l'. apply untouched_step. intros st0. apply Hquiet. }
  destruct Hls as (Hcfg & Hcap & Hpos & Htr & Hcurve & _).
  assert (this' = eng ls) as ->.
  { destruct (closeOut_fields _ _ _ Hclose)
      as (_ & _ & [(Hopen & _)|(_ & ->)]); [|reflexivity].
    rewrite Hpos in Hopen. exfalso. exact (Qlt_irrefl _ Hopen). }
  subst res.
  destruct (generateReport_fields Math_sqrt (eng ls)) as (Hq & Ht & _ & Hfinal).
  destruct (generateReport_counts Math_sqrt (eng ls)) as (Htot & _).
  destruct (generateReport_returns_fields Math_sqrt (eng ls)) as (_ & Hret & _).
  rewrite Ht, Htot, Hret, Hfinal, Hq, Htr, Hcap, Hpos, Hcfg.
  split; [reflexivity|]. split; [reflexivity|].
  split; [cbn; ring|]. split; [cbn; ring|exact Hcurve].
Qed.

End Quiet.

(** X16.  A run of a fresh engine in which no signal is a 'buy' with a
    confidence above 0.5 makes no trade at all, sells and low-confidence
    buys included: the trade log is empty, every equity point records the
    initial capital, and the final capital is the initial capital. *)
Theorem run_without_confident_buy {S : Type} (Math_sqrt : Q -> Q)
    (cfg : BacktestConfig S) (st : S) (bars : list Bar)
    (res : BacktestResult) (this' : BacktestEngine S) (st' : S) :
  (forall i st0 signal st1,
     (i < length bars)%nat ->
     analyze (strategy cfg) st0 bars (Z.of_nat i) = Normal (signal, st1) ->
     sig_action signal <> buy \/ sig_confidence signal <= 1 # 2) ->
  run Math_sqrt (constructor cfg) st bars = Normal (res, this', st') ->
  res_trades res = [] /\ total_trades res = 0%nat /\
  final_capital res == initialCapital cfg /\
  total_return res == 0 /\
  Forall (fun p => ep_equity p == initialCapital cfg) (equity_curve res).
Proof.
  intros Hsig Hrun.
  apply (run_untouched Math_sqrt cfg (fun _ => True) st bars res this' st');
    [auto|
    |exact I|exact Hrun].
  intros i st0 bar signal st1 _ Hbar Han. split; [exact I|].
  intros (Ha & _ & Hc & _).
  destruct (Hsig i st0 signal st1) as [Hne|Hle];
    [now apply lookup_lt_Some in Hbar|exact Han|contradiction|].
  exact (Qlt_not_le _ _ Hc Hle).
Qed.

Lemma scripted_signal (script : list (SignalAction * Q)) (bars : list Bar)
    (i : nat) (st0 st1 : unit) (signal : StrategySignal) :
  analyze (scripted script) st0 bars (Z.of_nat i) = Normal (signal, st1) ->
  (sig_action signal, sig_confidence signal) = default (hold, 0) (script !! i).
Proof.
  cbn [analyze scripted]. intros H.
  apply bind_Normal in H as (b & _ & H). rewrite Nat2Z.id in H.
  destruct (default (hold, 0) (script !! i)) as [a c]. now injection H as <- _.
Qed.

Lemma run_without_confident_buy_witness :
  exists res this' st',
    run isqrt (constructor configQuiet) tt bars3 = Normal (res, this', st') /\
    res_trades res = [].
Proof.
  destruct (run isqrt (constructor configQuiet) tt bars3)
    as [[[res this'] st']|e] eqn:E; [|vm_compute in E; discriminate].
  exists res, this', st'. split; [reflexivity|].
  refine (proj1 (run_without_confident_buy isqrt configQuiet tt bars3
                   res this' st' _ E)).
  intros i st0 signal st1 Hi Han. apply scripted_signal in Han.
  simpl in Hi.
  destruct i as [|[|[|i]]]; [| | |lia]; cbn in Han; injection Han as -> ->.
  - right. vm_compute. discriminate.
  - left. discriminate.
  - left. discriminate.
Defined.

Lemma SMACrossover_analyze_warmup (this : SMAParameters) (bars : list Bar)
    (index : Z) (signal : StrategySignal) :
  (index < longPeriod this)%Z ->
  SMACrossover_analyze this bars index = Normal signal ->
  sig_action signal = hold /\ sig_confidence signal = 0.
Proof.
  intros Hwarm. unfold SMACrossover_analyze.
  destruct (Z.ltb_spec index (longPeriod this)) as [_|Hge]; [|lia].
  intros Hrun. apply bind_Normal in Hrun as (b & _ & [= <-]). now split.
Qed.

Lemma RSI_analyze_warmup (this : RSIParameters) (bars : list Bar)
    (index : Z) (signal : StrategySignal) :
  (index < rsi_period this + 1)%Z ->
  RSI_analyze this bars index = Normal signal ->
  sig_action signal = hold /\ sig_confidence signal = 0.
Proof.
  intros Hwarm. unfold RSI_analyze.
  destruct (Z.ltb_spec index (rsi_period this + 1)) as [_|Hge]; [|lia].
  intros Hrun. apply bind_Normal in Hrun as (b & _ & [= <-]). now split.
Qed.

(** X17.  A backtest of the SMA crossover strategy over no more bars than
    its long period stays in the warm-up: it returns, makes no trade, and
    reports the initial capital as final capital. *)
Theorem SMACrossover_short_history (Math_sqrt : Q -> Q)
    (cfg : BacktestConfig SMAParameters) (st : SMAParameters) (bars : list Bar) :
  strategy cfg = SMACrossoverStrategy ->
  bars <> [] -> (Z.of_nat (length bars) <= longPeriod st)%Z ->
  exists res this' st',
    run Math_sqrt (constructor cfg) st bars = Normal (res, this', st') /\
    res_trades res = [] /\ total_trades res = 0%nat /\
    final_capital res == initialCapital cfg /\ total_return res == 0.
Proof.
  intros Hstrat Hne Hshort.
  destruct (run_returns Math_sqrt (constructor cfg) st bars) as [[[res this'] st'] Hrun];
    [cbn [constructor config]; rewrite Hstrat; apply SMACrossoverStrategy_answers
    |exact Hne|].
  exists res, this', st'. split; [exact Hrun|].
  destruct (run_untouched Math_sqrt cfg (fun s => s = st) st bars res this' st')
    as (H1 & H2 & H3 & H4 & _); [| |reflexivity|exact Hrun|now repeat split].
  - rewrite Hstrat. intros init st0 [= <-] -> st1 [= <-]. reflexivity.
  - rewrite Hstrat. intros i st0 bar signal st1 -> Hbar Han.
    cbn [analyze SMACrossoverStrategy] in Han.
    apply bind_Normal in Han as (sg & Hsg & [= <- <-]). split; [reflexivity|].
    apply SMACrossover_analyze_warmup in Hsg as [Ha _].
    + intros (Hb & _). congruence.
    + apply lookup_lt_Some in Hbar. lia.
Qed.

Lemma SMACrossover_short_history_witness :
  exists res this' st',
    run isqrt (constructor configSMA) defaultSMAParameters bars3
      = Normal (res, this', st') /\
    total_trades res = 0%nat.
Proof.
  destruct (SMACrossover_short_history isqrt configSMA defaultSMAParameters bars3)
    as (res & this' & st' & Hrun & _ & Htot & _);
    [reflexivity|discriminate|simpl; lia|].
  exists res, this', st'. now split.
Defined.

(** X18.  A backtest of the RSI strategy over no more than [period + 1] bars
    stays in the warm-up: it returns, makes no trade, and reports the initial
    capital as final capital. *)
Theorem RSI_short_history (Math_sqrt : Q -> Q)
    (cfg : BacktestConfig RSIParameters) (st : RSIParameters) (bars : list Bar) :
  strategy cfg = RSIStrategy ->
  bars <> [] -> (Z.of_nat (length bars) <= rsi_period st + 1)%Z ->
  exists res this' st',
    run Math_sqrt (constructor cfg) st bars = Normal (res, this', st') /\
    res_trades res = [] /\ total_trades res = 0%nat /\
    final_capital res == initialCapital cfg /\ total_return res == 0.
Proof.
  intros Hstrat Hne Hshort.
  destruct (run_returns Math_sqrt (constructor cfg) st bars) as [[[res this'] st'] Hrun];
    [cbn [constructor config]; rewrite Hstrat; apply RSIStrategy_answers
    |exact Hne|].
  exists res, this', st'. split; [exact Hrun|].
  destruct (run_untouched Math_sqrt cfg (fun s => s = st) st bars res this' st')
    as (H1 & H2 & H3 & H4 & _); [| |reflexivity|exact Hrun|now repeat split].
  - rewrite Hstrat. intros init st0 [= <-] -> st1 [= <-]. reflexivity.
  - rewrite Hstrat. intros i st0 bar signal st1 -> Hbar Han.
    cbn [analyze RSIStrategy] in Han.
    apply bind_Normal in Han as (sg & Hsg & [= <- <-]). split; [reflexivity|].
    apply RSI_analyze_warmup in Hsg as [Ha _].
    + intros (Hb & _). congruence.
    + apply lookup_lt_Some in Hbar. lia.
Qed.

Lemma RSI_short_history_witness :
  exists res this' st',
    run isqrt (constructor configRSI) (RSI_constructor None None None) barsFall
      = Normal (res, this', st') /\
    total_trades res = 0%nat.
Proof.
  destruct (RSI_short_history isqrt configRSI (RSI_constructor None None None) barsFall)
    as (res & this' & st' & Hrun & _ & Htot & _);
    [reflexivity|discriminate|simpl; lia|].
  exists res, this', st'. now split.
Defined.




(** ** Fills *)



(** ** Drawdowns *)

Section Drawdown.
Context {S : Type}.
Implicit Types (this : BacktestEngine S) (ls : LoopState S) (bars : list Bar).


End Drawdown.



(** ** An engine that is run again *)

Section Reuse.
Context {S : Type}.
Implicit Types (this : BacktestEngine S) (ls : LoopState S) (bars : list Bar).

Lemma accumulate_step (this : BacktestEngine S) bars i ls ls' :
  (exists points log,
     equityCurve (eng ls) = equityCurve this ++ points /\ length points = i /\
     trades (eng ls) = trades this ++ log) ->
  loopBody bars i ls = Normal ls' ->
  exists points log,
    equityCurve (eng ls') = equityCurve this ++ points /\
    length points = Datatypes.S i /\
    trades (eng ls') = trades this ++ log.
Proof.
  intros (points & log & Hq & Hlen & Htr) H.
  destruct (loopBody_curve _ _ _ _ H) as (bar & _ & _ & _ & Hcurve).
  destruct (loopBody_cases bars i ls ls' H) as (bar' & signal & _ & _ & Hcases).
  eexists (points ++ [_]).
  assert (Hlog : exists log', trades (eng ls') = trades this ++ log').
  { destruct Hcases
      as [(_ & _ & _ & Ht)|[(_ & _ & _ & Ht)|(_ & _ & _ & _ & Ht)]];
      rewrite Ht, Htr; [| |now exists log]; rewrite <- app_assoc; eauto. }
  destruct Hlog as [log' Hlog]. exists log'.
  split; [rewrite Hcurve, Hq; now rewrite app_assoc|].
  split; [rewrite length_app; simpl; lia|exact Hlog].
Qed.

End Reuse.

(** X22.  [run] never resets the engine it is called on: the equity curve
    it returns is the curve the engine already held followed by one point
    per bar, the trade log it returns starts with the log the engine already
    held, and the initial capital it reports is the configured one.  A
    second run on the same engine therefore reports both runs. *)
Theorem run_keeps_history {S : Type} (Math_sqrt : Q -> Q)
    (this : BacktestEngine S) (st : S) (bars : list Bar)
    (res : BacktestResult) (this' : BacktestEngine S) (st' : S) :
  run Math_sqrt this st bars = Normal (res, this', st') ->
  exists points log,
    equity_curve res = equityCurve this ++ points /\
    length points = length bars /\
    res_trades res = trades this ++ log /\
    total_trades res = (length (trades this) + length log)%nat /\
    initial_capital res = initialCapital (config this).
Proof.
  intros Hrun.
  destruct (run_inv _ _ _ _ _ _ _ Hrun)
    as (_ & entry & ls & Hentry & Hloop & Hclose & Hres & _).
  destruct (loopEntry_inv _ _ _ Hentry) as (Heng & _ & _).
  destruct (loopUpTo_invariant_indexed
              (fun i l => exists points log,
                 equityCurve (eng l) = equityCurve this ++ points /\
                 length points = i /\ trades (eng l) = trades this ++ log)
              bars (accumulate_step this bars) (length bars) entry ls)
    as (points & log & Hq & Hlen & Htr); [|exact Hloop|].
  { exists [], []. rewrite Heng, !app_nil_r. repeat split. }
  pose proof (loopUpTo_config _ _ _ _ Hloop) as Hcfg. rewrite Heng in Hcfg.
  destruct (closeOut_fields _ _ _ Hclose) as (Hcfg' & Hcurve & Hcases).
  destruct (generateReport_fields Math_sqrt this') as (Heq & Hrt & _).
  destruct (generateReport_counts Math_sqrt this') as (Htot & _).
  destruct (generateReport_returns_fields Math_sqrt this') as (Hini & _).
  subst res. rewrite Heq, Hrt, Htot, Hini, Hcurve, Hcfg', Hcfg.
  exists points.
  destruct Hcases as [(_ & lastBar & _ & _ & _ & Ht)|(_ & ->)].
  - exists (log ++ [sellTrade (eng ls) lastBar (Some "End of backtest")]).
    rewrite Ht, Htr, <- app_assoc. repeat split; try assumption.
    now rewrite !length_app.
  - exists log. rewrite Htr. repeat split; try assumption. now rewrite length_app.
Qed.

Lemma run_keeps_history_witness :
  exists res1 e1 st1 res2 e2 st2,
    run3 = Normal (res1, e1, st1) /\
    run isqrt e1 st1 bars3 = Normal (res2, e2, st2) /\
    length (equity_curve res2) = 6%nat /\ total_trades res2 = 4%nat.
Proof.
  destruct run3 as [[[res1 e1] st1]|e] eqn:E1; [|vm_compute in E1; discriminate].
  destruct (run isqrt e1 st1 bars3) as [[[res2 e2] st2]|e] eqn:E2.
  - exists res1, e1, st1, res2, e2, st2. split; [reflexivity|].
    split; [exact E2|].
    destruct (run_keeps_history isqrt e1 st1 bars3 res2 e2 st2 E2)
      as (points & log & Hq & Hlen & _).
    vm_compute in E1. injection E1 as <- <- <-.
    vm_compute in E2. injection E2 as <- _ _. split; reflexivity.
  - exfalso. vm_compute in E1. injection E1 as _ <- <-.
    vm_compute in E2. discriminate.
Defined.

(** * Further properties of the registry (strategies/index.ts) *)

Lemma strategies_lookup (id : string) :
  (id = "sma-crossover" /\ strategies !! id = Some sma_loc) \/
  (id = "rsi" /\ strategies !! id = Some rsi_loc) \/
  (id <> "sma-crossover" /\ id <> "rsi" /\ strategies !! id = None).
Proof.
  unfold strategies.
  destruct (decide (id = "sma-crossover")) as [->|H1]; [left; split; reflexivity|].
  destruct (decide (id = "rsi")) as [->|H2]; [right; left; split; reflexivity|].
  right. right. repeat split; try assumption.
  rewrite lookup_insert_ne by congruence. now rewrite lookup_singleton_ne.
Qed.

(** X23.  The registry has two own keys, 'sma-crossover' and 'rsi'.  For a
    name that is neither of them (and not a name [Object.prototype]
    provides, which the lookup of the code would find) [getStrategy]
    answers null, with or without parameters, and changes no strategy; for
    the two registered names it never answers null. *)
Theorem getStrategy_unknown (id : string) (params : option (gmap string Q))
    (h : heap) :
  id ∉ Object_prototype_keys ->
  ((getStrategy id params h).1 = None <-> id <> "sma-crossover" /\ id <> "rsi") /\
  ((getStrategy id params h).1 = None -> (getStrategy id params h).2 = h).
Proof.
  intros _. unfold getStrategy.
  destruct (strategies_lookup id) as [[-> ->]|[[-> ->]|(H1 & H2 & ->)]].
  - destruct params; cbn; repeat split; try discriminate; try tauto;
      intros [? ?]; congruence.
  - destruct params; cbn; repeat split; try discriminate; try tauto;
      intros [? ?]; congruence.
  - cbn. repeat split; try assumption; try discriminate.
Qed.

Lemma getStrategy_unknown_witness :
  getStrategy "macd" (Some overrideLong) initial_heap = (None, initial_heap).
Proof.
  assert (Hin : "macd" ∉ Object_prototype_keys).
  { unfold Object_prototype_keys. rewrite !not_elem_of_cons.
    repeat (split; [discriminate|]). apply not_elem_of_nil. }
  destruct (getStrategy_unknown "macd" (Some overrideLong) initial_heap Hin)
    as [Hiff Hheap].
  assert (Hnone : (getStrategy "macd" (Some overrideLong) initial_heap).1 = None).
  { apply Hiff. split; discriminate. }
  specialize (Hheap Hnone).
  destruct (getStrategy "macd" (Some overrideLong) initial_heap) as [r h'].
  cbn in *. now subst.
Defined.

Lemma assign_parameters_compose (p1 p2 : gmap string Q) (o : StrategyObject) :
  assign_parameters p2 (assign_parameters p1 o) = assign_parameters (p2 ∪ p1) o.
Proof.
  unfold assign_parameters. cbn. f_equal. apply (assoc_L (∪)).
Qed.

(** X24.  Overrides pile up in the shared instance.  After
    [getStrategy id p1] and then [getStrategy id p2], the parameters of the
    instance are [p2] over [p1] over what they were: a key of [p2] has the
    value [p2] gives it, a key only [p1] has keeps the value of [p1], and no
    key the instance had is lost, so the defaults of an overridden key do
    not come back.  Repeating a call with the same parameters changes
    nothing more. *)
Theorem getStrategy_overrides_compose (id : string) (l : loc)
    (p1 p2 : gmap string Q) (h : heap) (o : StrategyObject) :
  strategies !! id = Some l -> h !! l = Some o ->
  let h1 := (getStrategy id (Some p1) h).2 in
  let h2 := (getStrategy id (Some p2) h1).2 in
  h2 !! l = Some (assign_parameters (p2 ∪ p1) o) /\
  (forall k v, p2 !! k = Some v ->
               obj_parameters (assign_parameters (p2 ∪ p1) o) !! k = Some v) /\
  (forall k v, p2 !! k = None -> p1 !! k = Some v ->
               obj_parameters (assign_parameters (p2 ∪ p1) o) !! k = Some v) /\
  dom (obj_parameters o) ⊆ dom (obj_parameters (assign_parameters (p2 ∪ p1) o)) /\
  (getStrategy id (Some p1) h1).2 = h1.
Proof.
  intros Hreg Hobj. cbn zeta.
  rewrite (getStrategy_registered id l (Some p1) h Hreg). cbn [snd].
  rewrite (getStrategy_registered id l (Some p2) _ Hreg). cbn [snd].
  rewrite (getStrategy_registered id l (Some p1) _ Hreg). cbn [snd].
  assert (H1 : alter (assign_parameters p1) l h !! l = Some (assign_parameters p1 o)).
  { now rewrite lookup_alter_eq, Hobj. }
  split; [|split; [|split; [|split]]].
  - rewrite lookup_alter_eq, H1. cbn. now rewrite assign_parameters_compose.
  - intros k v Hk. cbn. apply lookup_union_Some_l. now apply lookup_union_Some_l.
  - intros k v Hk2 Hk1. cbn. rewrite <- (assoc_L (∪)).
    rewrite lookup_union_r by exact Hk2. now apply lookup_union_Some_l.
  - cbn. rewrite dom_union_L. set_solver.
  - apply map_eq. intros l'. destruct (decide (l' = l)) as [->|Hne].
    + rewrite lookup_alter_eq, H1. cbn. f_equal. unfold assign_parameters. cbn.
      f_equal. rewrite (assoc_L (∪)). f_equal. apply (idemp_L (∪)).
    + now rewrite lookup_alter_ne by congruence.
Qed.

Lemma getStrategy_overrides_compose_witness :
  exists o2,
    (getStrategy "sma-crossover" (Some overrideShort)
       (getStrategy "sma-crossover" (Some overrideLong) initial_heap).2).2
      !! sma_loc = Some o2 /\
    obj_parameters o2 !! "longPeriod" = Some 7 /\
    obj_parameters o2 !! "shortPeriod" = Some 3.
Proof.
  destruct (getStrategy_overrides_compose "sma-crossover" sma_loc
              overrideLong overrideShort initial_heap defaultSMAObject)
    as (Hlook & Hin & _); [reflexivity|reflexivity|].
  eexists. split; [exact Hlook|]. split; apply Hin; reflexivity.
Defined.

(** * The strategies route (routes/strategies.ts) *)

Lemma registry_allocated_initial : registry_allocated initial_heap.
Proof.
  intros id l Hid.
  destruct (strategies_lookup id) as [[_ H]|[[_ H]|(_ & _ & H)]];
    rewrite H in Hid; try discriminate; injection Hid as <-; eexists; reflexivity.
Qed.

Lemma registry_allocated_getStrategy (id : string)
    (params : option (gmap string Q)) (h : heap) :
  registry_allocated h -> registry_allocated (getStrategy id params h).2.
Proof.
  intros Hall id' l' Hid'. specialize (Hall id' l' Hid').
  unfold getStrategy. destruct (strategies !! id) as [l|]; [|exact Hall].
  destruct params as [ps|]; [|exact Hall]. cbn [snd].
  destruct (decide (l' = l)) as [->|Hne].
  - destruct Hall as [o Ho]. rewrite lookup_alter_eq, Ho. eexists. reflexivity.
  - now rewrite lookup_alter_ne by congruence.
Qed.

(** X25.  [GET /api/strategies/:strategyId] never changes a strategy.  For
    a registered identifier it answers 200 with the name, the description
    and the parameters the shared instance has at that moment, so that the
    overrides of an earlier [getStrategy] with parameters show in the
    answer.  For an identifier that is not registered (and not a name
    [Object.prototype] provides) it answers 404 "Strategy not found", and
    it answers 404 in no other case. *)
Theorem get_strategy_spec (strategyId : string) (h : heap) :
  registry_allocated h ->
  (get_strategy strategyId h).2 = h /\
  (strategyId ∉ Object_prototype_keys -> strategies !! strategyId = None ->
   (get_strategy strategyId h).1
   = {| status := 404; body := JsonError "Strategy not found" |}) /\
  (forall l o, strategies !! strategyId = Some l -> h !! l = Some o ->
     (get_strategy strategyId h).1
     = {| status := 200; body := JsonStrategy (info_of strategyId o) |}) /\
  (status (get_strategy strategyId h).1 = 404%nat -> strategies !! strategyId = None) /\
  (forall l o params, strategies !! strategyId = Some l -> h !! l = Some o ->
     (get_strategy strategyId (getStrategy strategyId (Some params) h).2).1
     = {| status := 200;
          body := JsonStrategy (info_of strategyId (assign_parameters params o)) |}).
Proof.
  intros Hall.
  assert (Hreg : forall l o h', strategies !! strategyId = Some l -> h' !! l = Some o ->
            get_strategy strategyId h'
            = ({| status := 200; body := JsonStrategy (info_of strategyId o) |}, h')).
  { intros l o h' Hl Ho. unfold get_strategy.
    rewrite (getStrategy_registered strategyId l None h' Hl).
    unfold strategy_info. now rewrite Ho. }
  assert (Hnone : strategies !! strategyId = None ->
            get_strategy strategyId h
            = ({| status := 404; body := JsonError "Strategy not found" |}, h)).
  { intros Hn. unfold get_strategy, getStrategy. now rewrite Hn. }
  split; [|split; [|split; [|split]]].
  - destruct (strategies !! strategyId) as [l|] eqn:Hl.
    + destruct (Hall strategyId l Hl) as [o Ho]. now rewrite (Hreg l o h eq_refl Ho).
    + now rewrite Hnone.
  - intros _ Hn. now rewrite Hnone.
  - intros l o Hl Ho. now rewrite (Hreg l o h Hl Ho).
  - destruct (strategies !! strategyId) as [l|] eqn:Hl.
    + destruct (Hall strategyId l Hl) as [o Ho]. rewrite (Hreg l o h eq_refl Ho).
      cbn. discriminate.
    + reflexivity.
  - intros l o params Hl Ho.
    rewrite (getStrategy_registered strategyId l (Some params) h Hl). cbn [snd].
    rewrite (Hreg l (assign_parameters params o)); [reflexivity|exact Hl|].
    now rewrite lookup_alter_eq, Ho.
Qed.

Lemma get_strategy_spec_witness :
  (get_strategy "macd" initial_heap).1
  = {| status := 404; body := JsonError "Strategy not found" |} /\
  (get_strategy "sma-crossover"
     (getStrategy "sma-crossover" (Some overrideLong) initial_heap).2).1
  = {| status := 200;
       body := JsonStrategy (info_of "sma-crossover"
                               (assign_parameters overrideLong defaultSMAObject)) |}.
Proof.
  destruct (get_strategy_spec "macd" initial_heap registry_allocated_initial)
    as (_ & H404 & _).
  destruct (get_strategy_spec "sma-crossover" initial_heap registry_allocated_initial)
    as (_ & _ & _ & _ & Hover).
  split; [|apply (Hover sma_loc); reflexivity].
  apply H404; [|reflexivity].
  unfold Object_prototype_keys. rewrite !not_elem_of_cons.
  repeat (split; [discriminate|]). apply not_elem_of_nil.
Defined.

(** X26.  [GET /api/strategies] answers 200 with the two registered
    strategies, 'sma-crossover' first, each with the parameters its shared
    instance has at that moment; it never answers 500 while the registered
    instances exist. *)
Theorem get_strategies_spec (h : heap) :
  registry_allocated h ->
  exists sma rsi,
    h !! sma_loc = Some sma /\ h !! rsi_loc = Some rsi /\
    get_strategies h
    = {| status := 200;
         body := JsonStrategies [info_of "sma-crossover" sma; info_of "rsi" rsi] |}.
Proof.
  intros Hall.
  destruct (Hall "sma-crossover" sma_loc eq_refl) as [sma Hsma].
  destruct (Hall "rsi" rsi_loc eq_refl) as [rsi Hrsi].
  exists sma, rsi. split; [exact Hsma|]. split; [exact Hrsi|].
  unfold get_strategies, strategy_keys. cbn [mapM].
  change (strategies !! "sma-crossover") with (Some sma_loc).
  change (strategies !! "rsi") with (Some rsi_loc).
  unfold strategy_info. now rewrite Hsma, Hrsi.
Qed.

Lemma get_strategies_spec_witness :
  status (get_strategies initial_heap) = 200%nat.
Proof.
  destruct (get_strategies_spec initial_heap registry_allocated_initial)
    as (sma & rsi & _ & _ & ->).
  reflexivity.
Defined.
